(** * smart_convert_epargne: the investment calculator, verified

    A shallow embedding of the computational core of
    [src/investment-calculator.js] and of its earlier revision (the second
    source file): the input validator [validateInput], the bracket lookup
    [calculateRecommendation] and the compounding loop
    [calculateInvestment].

    JavaScript numbers are IEEE 754 binary64 values; they are modelled by
    Rocq's primitive floats, whose operations are the processor's and whose
    specification ([SpecFloat]) is that of IEEE 754 with round to nearest,
    ties to even. *)

From Stdlib Require Import ZArith Lia Bool List.
From Stdlib Require Import Floats.
From stdpp Require Import gmap strings list.
From stdpp Require Import pretty.

Set Warnings "-inexact-float".
Local Open Scope Z_scope.

(** ** JavaScript numbers and the built-ins the code calls *)

Module JS.

(** The Number of an integer (a loop index, an integer literal). *)
Definition Z2F (n : Z) : float := SF2Prim (binary_normalize prec emax n 0 false).

(** [Math.max(a, b)]: NaN if either argument is NaN; [+0] is larger than [-0]. *)
Definition Math_max (a b : float) : float :=
  if is_nan a || is_nan b then nan
  else if (a <? b)%float then b
  else if (b <? a)%float then a
  else if get_sign a then b else a.

(** [Math.min(a, b)]: NaN if either argument is NaN; [-0] is smaller than [+0]. *)
Definition Math_min (a b : float) : float :=
  if is_nan a || is_nan b then nan
  else if (a <? b)%float then a
  else if (b <? a)%float then b
  else if get_sign a then a else b.

(** [Math.round(x)]: the integer nearest to [x], a tie going towards
    [+Infinity]; NaN, the infinities and the zeros are returned as they are,
    and a result that is zero keeps the sign of [x]. *)
Definition Math_round (x : float) : float :=
  match Prim2SF x with
  | S754_finite s m e =>
      if 0 <=? e then x
      else
        let k := (cond_Zopp s (Zpos m) * 2 + 2 ^ (- e)) / 2 ^ (1 - e) in
        if k =? 0 then (if s then neg_zero else zero) else Z2F k
  | _ => x
  end.

(** What [x.toFixed(2)] returns, by content: either the decimal numeral
    [-?d...d.dd] of [n] hundredths, or, when [x] is not finite or
    [|x| >= 1e21], the string [Number::toString(x)]. *)
Inductive fixed_string : Type :=
  | FixedDecimal (neg : bool) (n : Z)
  | FixedToString (x : float).

(** The integer [n] for which [n / 100 - ax] is as close to zero as
    possible, the larger one if there are two: [floor (100 * ax + 1/2)],
    computed exactly from the mantissa and the exponent of [ax >= 0]. *)
Definition hundredths (ax : float) : Z :=
  match Prim2SF ax with
  | S754_finite _ m e =>
      if 0 <=? e then Zpos m * 2 ^ e * 100
      else (Zpos m * 200 + 2 ^ (- e)) / 2 ^ (1 - e)
  | _ => 0
  end.

(** [Number.prototype.toFixed] with [fractionDigits = 2]. *)
Definition toFixed2 (x : float) : fixed_string :=
  if is_nan x || is_infinity x then FixedToString x
  else if (1e21 <=? abs x)%float then FixedToString x
  else FixedDecimal (x <? 0)%float (hundredths (abs x)).

(** [parseFloat] on such a string: the Number nearest to the numeral's
    value (the correctly rounded quotient of [n] by 100, with the numeral's
    sign), and [x] back from [Number::toString(x)]. *)
Definition parseFloat (s : fixed_string) : float :=
  match s with
  | FixedDecimal neg (Zpos p) =>
      SF2Prim (SFdiv prec emax (S754_finite neg p 0) (S754_finite false 100 0))
  | FixedDecimal neg _ => if neg then neg_zero else zero
  | FixedToString x => x
  end.

End JS.

(** [parseFloat(x.toFixed(2))], the rounding the code applies to what it
    stores. *)
Definition round2 (x : float) : float := JS.parseFloat (JS.toFixed2 x).

(** ** The reference table and the component's state *)

Record tranche := Tranche {
  id : string;
  label : string;
  min : float;
  max : float;
  tauxEpargneRecommande : float
}.

Definition TRANCHES : list tranche :=
  [ Tranche "moins-2000" "Moins de 2000€" 0 2000 0.05;
    Tranche "2000-4000" "Entre 2000€ et 4000€" 2000 4000 0.10;
    Tranche "4000-6000" "Entre 4000€ et 6000€" 4000 6000 0.15;
    Tranche "6000-8000" "Entre 6000€ et 8000€" 6000 8000 0.20;
    Tranche "plus-8000" "Plus de 8000€" 8000 100000 0.25 ].

(** The [inputs] state. *)
Record inputs := Inputs {
  sommeInitiale : float;
  mensualite : float;
  tauxAnnuel : float;
  nombreAnnees : float;
  trancheRevenu : string
}.

Record recommandation_t := Recommandation {
  montantRecommande : float;
  pourcentageRevenu : float
}.

(** An element of [graphData]. *)
Record point := Point {
  mois : float;
  total : float;
  investi : float
}.

(** The [results] state, as [setResults] receives it. *)
Record results := Results {
  montantTotal : float;
  montantInvesti : float;
  gains : float;
  graphData : list point;
  recommandation : recommandation_t
}.

(** The result object [{ value, errors }] of [validateInput]. *)
Record validation := Validation {
  value : float;
  errors : gmap string string
}.

(** ** The input validator *)

(** [validateInput(name, value)]; the [errors] state the closure reads is
    an argument.  [{ ...errors }] copies the map, an assignment inserts,
    [delete] removes.  The only caller that passes something else than a
    Number passes the bracket id under the name ['trancheRevenu'], which
    takes the [default] branch. *)
Definition validateInput (errs : gmap string string) (name : string) (v : float)
  : validation :=
  let newErrors := errs in
  if String.eqb name "sommeInitiale" then
    let newErrors :=
      if (v <? 0)%float
      then <["sommeInitiale" := "Le montant doit être positif"]> newErrors
      else delete "sommeInitiale" newErrors in
    Validation (JS.Math_max 0 v) newErrors
  else if String.eqb name "mensualite" then
    let newErrors :=
      if (v <? 0)%float
      then <["mensualite" := "Le versement doit être positif"]> newErrors
      else delete "mensualite" newErrors in
    Validation (JS.Math_max 0 v) newErrors
  else if String.eqb name "tauxAnnuel" then
    let newErrors :=
      if (v <? 0)%float || (100 <? v)%float
      then <["tauxAnnuel" := "Le taux doit être entre 0 et 100%"]> newErrors
      else delete "tauxAnnuel" newErrors in
    Validation (JS.Math_min 100 (JS.Math_max 0 v)) newErrors
  else if String.eqb name "nombreAnnees" then
    let newErrors :=
      if (v <? 1)%float || (50 <? v)%float
      then <["nombreAnnees" := "La durée doit être entre 1 et 50 ans"]> newErrors
      else delete "nombreAnnees" newErrors in
    Validation (JS.Math_min 50 (JS.Math_max 1 v)) newErrors
  else Validation v newErrors.

(** [handleInputChange(name, value)] on the numeric fields: the validated
    value goes into [inputs], the new map into [errors]. *)
Definition set_input (i : inputs) (name : string) (v : float) : inputs :=
  if String.eqb name "sommeInitiale" then
    Inputs v (mensualite i) (tauxAnnuel i) (nombreAnnees i) (trancheRevenu i)
  else if String.eqb name "mensualite" then
    Inputs (sommeInitiale i) v (tauxAnnuel i) (nombreAnnees i) (trancheRevenu i)
  else if String.eqb name "tauxAnnuel" then
    Inputs (sommeInitiale i) (mensualite i) v (nombreAnnees i) (trancheRevenu i)
  else if String.eqb name "nombreAnnees" then
    Inputs (sommeInitiale i) (mensualite i) (tauxAnnuel i) v (trancheRevenu i)
  else i.

Definition handleInputChange (st : inputs * gmap string string)
    (name : string) (v : float) : inputs * gmap string string :=
  let r := validateInput (snd st) name v in
  (set_input (fst st) name (value r), errors r).

(** ** The bracket lookup *)

Definition zero_recommandation : recommandation_t := Recommandation 0 0.

(** [calculateRecommendation(trancheId)].  The second component is what the
    call writes to the console ([console.warn]); nothing in the body can
    throw, so the [catch] branch is never taken. *)
Definition calculateRecommendation (trancheId : string)
  : recommandation_t * list string :=
  match List.find (fun t => String.eqb (id t) trancheId) TRANCHES with
  | None => (zero_recommandation, ["Tranche non trouvée: " +:+ trancheId])
  | Some tranche =>
      let revenuMoyen := ((min tranche + max tranche) / 2)%float in
      (Recommandation
         (JS.Math_round (revenuMoyen * tauxEpargneRecommande tranche)%float)
         (tauxEpargneRecommande tranche * 100)%float,
       [])
  end.

(** ** The compounding loop *)

(** The [for (let mois = 1; mois <= nombreMois; mois++)] loop, on the
    variables it reads and writes.  [fuel] bounds the number of tests of the
    loop condition; [None] stands for a loop that has not ended within it. *)
Fixpoint for_mois (fuel : nat) (i : inputs) (tauxMensuel nombreMois : float)
    (mois montantTotal : float) (graphData : list point)
  : option (float * list point) :=
  match fuel with
  | O => None
  | S fuel =>
      if (mois <=? nombreMois)%float then
        let montantTotal := (montantTotal + mensualite i)%float in
        let montantTotal := (montantTotal * (1 + tauxMensuel))%float in
        let graphData :=
          graphData ++
          [Point mois (round2 montantTotal)
                 (sommeInitiale i + mensualite i * mois)%float] in
        for_mois fuel i tauxMensuel nombreMois (mois + 1)%float montantTotal
                 graphData
      else Some (montantTotal, graphData)
  end.

(** The body of [calculateInvestment] (what [debounce] delays): the new
    [results] state and the console output. *)
Definition calculateInvestment (fuel : nat) (i : inputs)
  : option (results * list string) :=
  let nombreMois := (nombreAnnees i * 12)%float in
  let tauxMensuel := (tauxAnnuel i / 100 / 12)%float in
  let montantTotal := sommeInitiale i in
  let graphData := [Point 0 montantTotal montantTotal] in
  match for_mois fuel i tauxMensuel nombreMois 1 montantTotal graphData with
  | None => None
  | Some (montantTotal, graphData) =>
      let montantInvesti := (sommeInitiale i + mensualite i * nombreMois)%float in
      let gains := (montantTotal - montantInvesti)%float in
      let '(recommandation, console) := calculateRecommendation (trancheRevenu i) in
      Some (Results (round2 montantTotal) montantInvesti (round2 gains)
                    graphData recommandation,
            console)
  end.

(** ** The earlier revision *)

Module Legacy.

(** [parseFloat(e.target.value) || 0]: a falsy Number (NaN, a zero) becomes 0. *)
Definition or_zero (v : float) : float :=
  if is_nan v || is_zero v then 0%float else v.

(** [calculateRecommendation], without the console warning. *)
Definition calculateRecommendation (trancheId : string) : recommandation_t :=
  match List.find (fun t => String.eqb (id t) trancheId) TRANCHES with
  | None => Recommandation 0 0
  | Some tranche =>
      let revenuMoyen := ((min tranche + max tranche) / 2)%float in
      Recommandation
        (JS.Math_round (revenuMoyen * tauxEpargneRecommande tranche)%float)
        (tauxEpargneRecommande tranche * 100)%float
  end.

(** [calculateInvestment]: the same loop and the same result assembly. *)
Definition calculateInvestment (fuel : nat) (i : inputs) : option results :=
  let nombreMois := (nombreAnnees i * 12)%float in
  let tauxMensuel := (tauxAnnuel i / 100 / 12)%float in
  let montantTotal := sommeInitiale i in
  let graphData := [Point 0 montantTotal montantTotal] in
  match for_mois fuel i tauxMensuel nombreMois 1 montantTotal graphData with
  | None => None
  | Some (montantTotal, graphData) =>
      let montantInvesti := (sommeInitiale i + mensualite i * nombreMois)%float in
      let gains := (montantTotal - montantInvesti)%float in
      let recommandation := calculateRecommendation (trancheRevenu i) in
      Some (Results (round2 montantTotal) montantInvesti (round2 gains)
                    graphData recommandation)
  end.

End Legacy.

(** ** The recurrence of the specification *)

(** The balance after [m] months as the specification writes it:
    [total_0 = initialCapital] and
    [total_m = (total_{m-1} + monthlyContribution) * (1 + annualRatePercent/100/12)]. *)
Fixpoint balance (i : inputs) (m : nat) : float :=
  match m with
  | O => sommeInitiale i
  | S m' => ((balance i m' + mensualite i) * (1 + tauxAnnuel i / 100 / 12))%float
  end.

(** The series point of month [m >= 1] as the specification writes it. *)
Definition spec_point (i : inputs) (m : nat) : point :=
  Point (JS.Z2F (Z.of_nat m)) (round2 (balance i m))
        (sommeInitiale i + mensualite i * JS.Z2F (Z.of_nat m))%float.

(** The default state of the component. *)
Definition default_inputs : inputs := Inputs 0 120 3 3 "moins-2000".

(** ** The other handlers of the component *)

(** [handleInputChange('trancheRevenu', id)], the bracket selector:
    [validateInput] takes its [default] branch, which returns the value as
    it is with a copy of the errors, and the id goes into [inputs]. *)
Definition handleTrancheChange (st : inputs * gmap string string)
    (trancheId : string) : inputs * gmap string string :=
  (Inputs (sommeInitiale (fst st)) (mensualite (fst st)) (tauxAnnuel (fst st))
          (nombreAnnees (fst st)) trancheId,
   snd st).

(** [formatMois(mois)], the label of a period index on the axis of the
    chart.  The period indices are integers, and the function is modelled
    on them: [%] is JavaScript's remainder, which truncates, and
    [mois / 12] is exact where it is used. *)
Definition formatMois (mois : Z) : string :=
  if mois =? 0 then "Début"
  else if Z.rem mois 12 =? 0
       then pretty (Z.quot mois 12) +:+ " an" +:+ (if 12 <? mois then "s" else "")
       else pretty mois +:+ " mois".

(** The [onChange] handlers of the earlier revision:
    [setInputs({...inputs, field: parseFloat(e.target.value) || 0})]
    ([parseInt] for the duration), without validation. *)
Definition Legacy_setField (i : inputs) (name : string) (raw : float) : inputs :=
  set_input i name (Legacy.or_zero raw).

(** ** Binary64 values as integers *)

(** A Number that is not NaN is determined, up to the sign of zero, by an
    integer: its value in units of [2^emin] (the smallest positive Number),
    the infinities standing one binade above the largest finite Number.
    The comparisons of IEEE 754 are the comparisons of these integers. *)
Module FloatOrder.

Definition emin : Z := SpecFloat.emin prec emax.

Definition inf_key : Z := 2 ^ (emax - emin).

Definition key (x : spec_float) : option Z :=
  match x with
  | S754_nan => None
  | S754_zero _ => Some 0
  | S754_infinity s => Some (cond_Zopp s inf_key)
  | S754_finite s m e => Some (cond_Zopp s (Zpos m * 2 ^ (e - emin)))
  end.

Definition key_compare (a b : option Z) : option comparison :=
  match a, b with
  | Some x, Some y => Some (x ?= y)
  | _, _ => None
  end.

Lemma digits2_pos_bounds (m : positive) :
  2 ^ (Zpos (digits2_pos m) - 1) <= Zpos m < 2 ^ Zpos (digits2_pos m).
Proof.
  induction m as [m IH | m IH |]; simpl digits2_pos.
  - rewrite Pos2Z.inj_succ, Z.pow_succ_r by lia.
    replace (Z.succ (Zpos (digits2_pos m)) - 1) with (Zpos (digits2_pos m)) by lia.
    replace (Zpos (digits2_pos m)) with (Z.succ (Zpos (digits2_pos m) - 1)) at 1 by lia.
    rewrite Z.pow_succ_r by lia. lia.
  - rewrite Pos2Z.inj_succ, Z.pow_succ_r by lia.
    replace (Z.succ (Zpos (digits2_pos m)) - 1) with (Zpos (digits2_pos m)) by lia.
    replace (Zpos (digits2_pos m)) with (Z.succ (Zpos (digits2_pos m) - 1)) at 1 by lia.
    rewrite Z.pow_succ_r by lia. lia.
  - simpl. lia.
Qed.

(** What [valid_binary] says of a finite Number. *)
Lemma bounded_inv (m : positive) (e : Z) :
  bounded prec emax m e = true ->
  emin <= e <= emax - prec /\
  Zpos (digits2_pos m) <= prec /\
  (emin < e -> Zpos (digits2_pos m) = prec).
Proof.
  unfold bounded, canonical_mantissa, fexp, emin, SpecFloat.emin.
  intros H. apply andb_prop in H. destruct H as [H1 H2].
  apply Z.eqb_eq in H1. apply Z.leb_le in H2. lia.
Qed.

Lemma bounded_key (m : positive) (e : Z) :
  bounded prec emax m e = true ->
  0 < Zpos m * 2 ^ (e - emin) < inf_key.
Proof.
  intros H. destruct (bounded_inv _ _ H) as (He & Hd & _).
  pose proof (digits2_pos_bounds m) as [_ Hm].
  assert (0 < 2 ^ (e - emin)) by (apply Z.pow_pos_nonneg; lia).
  split; [lia|].
  assert (Zpos m < 2 ^ prec).
  { eapply Z.lt_le_trans; [exact Hm|]. apply Z.pow_le_mono_r; lia. }
  unfold inf_key.
  replace (emax - emin) with (prec + (emax - prec - emin)) by lia.
  rewrite Z.pow_add_r by (unfold prec, emax, emin in *; simpl in *; lia).
  assert (2 ^ (e - emin) <= 2 ^ (emax - prec - emin)) by (apply Z.pow_le_mono_r; lia).
  nia.
Qed.

(** Two valid finite Numbers with distinct exponents: the one with the
    smaller exponent is the smaller. *)
Lemma bounded_exp_lt (m1 m2 : positive) (e1 e2 : Z) :
  bounded prec emax m1 e1 = true -> bounded prec emax m2 e2 = true ->
  e1 < e2 ->
  Zpos m1 * 2 ^ (e1 - emin) < Zpos m2 * 2 ^ (e2 - emin).
Proof.
  intros H1 H2 Hlt.
  destruct (bounded_inv _ _ H1) as (He1 & Hd1 & _).
  destruct (bounded_inv _ _ H2) as (He2 & _ & Hn2).
  pose proof (digits2_pos_bounds m1) as [_ Hm1].
  pose proof (digits2_pos_bounds m2) as [Hm2 _].
  rewrite Hn2 in Hm2 by lia.
  assert (Hm1' : Zpos m1 < 2 ^ prec).
  { eapply Z.lt_le_trans; [exact Hm1|]. apply Z.pow_le_mono_r; lia. }
  replace (e2 - emin) with ((e1 - emin) + (e2 - e1)) by lia.
  rewrite Z.pow_add_r by lia.
  assert (0 < 2 ^ (e1 - emin)) by (apply Z.pow_pos_nonneg; lia).
  assert (2 ^ 1 <= 2 ^ (e2 - e1)) by (apply Z.pow_le_mono_r; lia).
  assert (Hp : 2 ^ prec = 2 * 2 ^ (prec - 1)) by reflexivity.
  rewrite Hp in Hm1'. change (2 ^ 1) with 2 in *.
  set (A := 2 ^ (prec - 1)) in *. set (P1 := 2 ^ (e1 - emin)) in *.
  set (P2 := 2 ^ (e2 - e1)) in *. clearbody A P1 P2.
  apply Z.lt_le_trans with (2 * A * P1); [nia|].
  apply Z.le_trans with (2 * Zpos m2 * P1); nia.
Qed.

Lemma key_finite_compare (m1 m2 : positive) (e1 e2 : Z) :
  bounded prec emax m1 e1 = true -> bounded prec emax m2 e2 = true ->
  match e1 ?= e2 with
  | Lt => Lt
  | Gt => Gt
  | Eq => Pos.compare_cont Eq m1 m2
  end = (Zpos m1 * 2 ^ (e1 - emin) ?= Zpos m2 * 2 ^ (e2 - emin)).
Proof.
  intros H1 H2. destruct (Z.compare_spec e1 e2) as [-> | Hlt | Hgt].
  - destruct (bounded_inv _ _ H2) as (He2 & _).
    assert (0 < 2 ^ (e2 - emin)) by (apply Z.pow_pos_nonneg; lia).
    change (Pos.compare_cont Eq m1 m2) with (Zpos m1 ?= Zpos m2).
    symmetry. destruct (Z.compare_spec (Zpos m1) (Zpos m2)).
    + apply Z.compare_eq_iff. congruence.
    + apply Z.compare_lt_iff. nia.
    + apply Z.compare_gt_iff. nia.
  - symmetry. apply Z.compare_lt_iff. now apply bounded_exp_lt.
  - symmetry. apply Z.compare_gt_iff. now apply bounded_exp_lt.
Qed.

(** The comparison of IEEE 754 is the comparison of the keys. *)
Lemma SFcompare_key (a b : spec_float) :
  valid_binary a = true -> valid_binary b = true ->
  SFcompare a b = key_compare (key a) (key b).
Proof.
  assert (Hinf : 0 < inf_key) by reflexivity.
  destruct a as [sa | sa | | sa ma ea], b as [sb | sb | | sb mb eb];
    cbn [valid_binary]; intros Ha Hb; try reflexivity.
  all: try (pose proof (bounded_key _ _ Ha) as Hka).
  all: try (pose proof (bounded_key _ _ Hb) as Hkb).
  all: try (pose proof (key_finite_compare _ _ _ _ Ha Hb) as Hab).
  all: try (destruct sa); try (destruct sb);
    cbn [key key_compare SFcompare cond_Zopp]; f_equal; symmetry.
  all: try (apply Z.compare_eq_iff; lia).
  all: try (apply Z.compare_lt_iff; lia).
  all: try (apply Z.compare_gt_iff; lia).
  - rewrite Z.compare_opp, (Z.compare_antisym (Zpos ma * _)), <- Hab.
    now destruct (ea ?= eb).
  - symmetry. exact Hab.
Qed.

(** *** The same, on primitive floats *)

Definition fkey (x : float) : option Z := key (Prim2SF x).

Lemma compare_fkey (x y : float) :
  SFcompare (Prim2SF x) (Prim2SF y) = key_compare (fkey x) (fkey y).
Proof. apply SFcompare_key; apply Prim2SF_valid. Qed.

Lemma ltb_fkey (x y : float) :
  (x <? y)%float =
  match fkey x, fkey y with Some a, Some b => a <? b | _, _ => false end.
Proof.
  rewrite FloatAxioms.ltb_spec. unfold SFltb. rewrite compare_fkey.
  destruct (fkey x) as [a|], (fkey y) as [b|]; cbn [key_compare]; try reflexivity.
Qed.

Lemma leb_fkey (x y : float) :
  (x <=? y)%float =
  match fkey x, fkey y with Some a, Some b => a <=? b | _, _ => false end.
Proof.
  rewrite FloatAxioms.leb_spec. unfold SFleb. rewrite compare_fkey.
  destruct (fkey x) as [a|], (fkey y) as [b|]; cbn [key_compare]; try reflexivity.
Qed.

Lemma eqb_fkey (x y : float) :
  (x =? y)%float =
  match fkey x, fkey y with Some a, Some b => a =? b | _, _ => false end.
Proof.
  rewrite FloatAxioms.eqb_spec. unfold SFeqb. rewrite compare_fkey.
  destruct (fkey x) as [a|], (fkey y) as [b|]; cbn [key_compare]; try reflexivity.
  destruct (Z.eqb_spec a b) as [-> | Hne].
  - now rewrite Z.compare_refl.
  - destruct (Z.compare_spec a b); congruence.
Qed.

Lemma is_nan_fkey (x : float) :
  is_nan x = match fkey x with Some _ => false | None => true end.
Proof.
  unfold is_nan. rewrite eqb_fkey. destruct (fkey x) as [a|]; [|reflexivity].
  now rewrite Z.eqb_refl.
Qed.

Lemma not_nan_fkey (x : float) : is_nan x = false -> exists k, fkey x = Some k.
Proof. rewrite is_nan_fkey. destruct (fkey x) as [k|]; [eauto | discriminate]. Qed.

Lemma fkey_nan : fkey nan = None.
Proof. reflexivity. Qed.

(** [Math.max] and [Math.min] are the maximum and the minimum of the keys. *)
Lemma Math_max_fkey (a b : float) (ka kb : Z) :
  fkey a = Some ka -> fkey b = Some kb ->
  fkey (JS.Math_max a b) = Some (Z.max ka kb) /\
  (JS.Math_max a b = a \/ JS.Math_max a b = b).
Proof.
  intros Ha Hb. unfold JS.Math_max.
  rewrite !is_nan_fkey, !ltb_fkey, Ha, Hb. cbn [orb].
  destruct (Z.ltb_spec ka kb), (Z.ltb_spec kb ka); try lia.
  - rewrite Hb. split; [f_equal; lia | now right].
  - rewrite Ha. split; [f_equal; lia | now left].
  - destruct (get_sign a); [rewrite Hb | rewrite Ha]; (split; [f_equal; lia | auto]).
Qed.

Lemma Math_min_fkey (a b : float) (ka kb : Z) :
  fkey a = Some ka -> fkey b = Some kb ->
  fkey (JS.Math_min a b) = Some (Z.min ka kb) /\
  (JS.Math_min a b = a \/ JS.Math_min a b = b).
Proof.
  intros Ha Hb. unfold JS.Math_min.
  rewrite !is_nan_fkey, !ltb_fkey, Ha, Hb. cbn [orb].
  destruct (Z.ltb_spec ka kb), (Z.ltb_spec kb ka); try lia.
  - rewrite Ha. split; [f_equal; lia | now left].
  - rewrite Hb. split; [f_equal; lia | now right].
  - destruct (get_sign a); [rewrite Ha | rewrite Hb]; (split; [f_equal; lia | auto]).
Qed.

Lemma Math_max_nan_r (a : float) : JS.Math_max a nan = nan.
Proof. unfold JS.Math_max. now rewrite orb_true_r. Qed.

Lemma Math_min_nan_r (a : float) : JS.Math_min a nan = nan.
Proof. unfold JS.Math_min. now rewrite orb_true_r. Qed.

End FloatOrder.

(** ** The loop counter *)

(** The loop index is a Number that starts at [1] and is incremented by
    [mois++]; over the range a validated duration allows (at most 600
    months) it runs through the Numbers of the integers, without rounding.
    The finitely many cases are checked by evaluation. *)
Module Counter.

Definition Zrange (lo : Z) (len : nat) : list Z :=
  map (fun j => lo + Z.of_nat j) (seq 0 len).

Lemma Zrange_In (lo : Z) (len : nat) (k : Z) :
  lo <= k < lo + Z.of_nat len -> In k (Zrange lo len).
Proof.
  intros H. unfold Zrange. apply in_map_iff.
  exists (Z.to_nat (k - lo)). split; [lia|]. apply in_seq. lia.
Qed.

Definition succ_ok (k : Z) : bool :=
  PrimFloat.Leibniz.eqb (JS.Z2F k + 1)%float (JS.Z2F (k + 1)).

Definition test_ok (n k : Z) : bool :=
  Bool.eqb (JS.Z2F k <=? JS.Z2F n * 12)%float (k <=? 12 * n).

Definition months_ok (n : Z) : bool :=
  PrimFloat.Leibniz.eqb (JS.Z2F n * 12)%float (JS.Z2F (12 * n)).

Lemma succ_table : forallb succ_ok (Zrange 0 601) = true.
Proof. vm_compute. reflexivity. Qed.

Lemma test_table :
  forallb (fun n => forallb (test_ok n) (Zrange 1 601)) (Zrange 1 50) = true.
Proof. vm_compute. reflexivity. Qed.

Lemma months_table : forallb months_ok (Zrange 1 50) = true.
Proof. vm_compute. reflexivity. Qed.

Lemma Z2F_succ (k : Z) :
  0 <= k <= 600 -> (JS.Z2F k + 1)%float = JS.Z2F (k + 1).
Proof.
  intros H. apply FloatAxioms.Leibniz.eqb_spec.
  apply (proj1 (forallb_forall _ _) succ_table k), Zrange_In. simpl. lia.
Qed.

Lemma Z2F_test (n k : Z) :
  1 <= n <= 50 -> 1 <= k <= 601 ->
  (JS.Z2F k <=? JS.Z2F n * 12)%float = (k <=? 12 * n).
Proof.
  intros Hn Hk. apply Bool.eqb_prop.
  assert (Hin : In n (Zrange 1 50)) by (apply Zrange_In; simpl; lia).
  pose proof (proj1 (forallb_forall _ _) test_table n Hin) as H.
  cbv beta in H.
  apply (proj1 (forallb_forall _ _) H k).
  apply Zrange_In. simpl. lia.
Qed.

Lemma Z2F_months (n : Z) :
  1 <= n <= 50 -> (JS.Z2F n * 12)%float = JS.Z2F (12 * n).
Proof.
  intros H. apply FloatAxioms.Leibniz.eqb_spec.
  apply (proj1 (forallb_forall _ _) months_table n), Zrange_In. simpl. lia.
Qed.

End Counter.

(** ** The loop computes the recurrence *)

(** The validated parameters of the specification: the amounts are
    non-negative reals, the rate lies in [0, 100], and the duration is the
    Number of an integer [n] of [1 .. 50]. *)
Definition nonneg_real (x : float) : bool :=
  (0 <=? x)%float && (x <? infinity)%float.

Definition validated (i : inputs) (n : Z) : Prop :=
  nonneg_real (sommeInitiale i) = true /\
  nonneg_real (mensualite i) = true /\
  ((0 <=? tauxAnnuel i)%float && (tauxAnnuel i <=? 100)%float = true) /\
  1 <= n <= 50 /\ nombreAnnees i = JS.Z2F n.

(** The number of months, as a natural number. *)
Definition months (n : Z) : nat := Z.to_nat (12 * n).

Lemma balance_step (i : inputs) (m : nat) :
  ((balance i m + mensualite i) * (1 + tauxAnnuel i / 100 / 12))%float
  = balance i (S m).
Proof. reflexivity. Qed.

(** From month [k] on, with [d] months left: the loop ends after [d] more
    iterations, with the balance of the last month and one more point per
    month. *)
Lemma for_mois_run (i : inputs) (n : Z) :
  1 <= n <= 50 ->
  forall (d k fuel : nat) (g : list point),
    (1 <= k)%nat -> (k + d = months n + 1)%nat -> (d < fuel)%nat ->
    for_mois fuel i (tauxAnnuel i / 100 / 12)%float (JS.Z2F n * 12)%float
             (JS.Z2F (Z.of_nat k)) (balance i (Nat.pred k)) g
    = Some (balance i (months n), g ++ (spec_point i <$> seq k d)).
Proof.
  intros Hn. unfold months.
  induction d as [|d IH]; intros k fuel g Hk Hkd Hfuel;
    (destruct fuel as [|fuel]; [lia|]); cbn [for_mois].
  - rewrite Counter.Z2F_test by lia.
    replace (Z.of_nat k <=? 12 * n) with false by (symmetry; apply Z.leb_gt; lia).
    cbn [fmap list_fmap seq]. rewrite app_nil_r. do 3 f_equal. lia.
  - rewrite Counter.Z2F_test by lia.
    replace (Z.of_nat k <=? 12 * n) with true by (symmetry; apply Z.leb_le; lia).
    rewrite balance_step, Counter.Z2F_succ by lia.
    replace (S (Nat.pred k)) with k by lia.
    replace (Z.of_nat k + 1) with (Z.of_nat (S k)) by lia.
    rewrite (IH (S k) fuel) by lia.
    cbn [fmap list_fmap seq]. rewrite <- app_assoc. reflexivity.
Qed.

(** The result of [calculateInvestment] on validated parameters, in closed
    form. *)
Definition closed_form (i : inputs) (n : Z) : results :=
  let montantInvesti := (sommeInitiale i + mensualite i * (JS.Z2F n * 12))%float in
  Results (round2 (balance i (months n)))
          montantInvesti
          (round2 (balance i (months n) - montantInvesti))
          (Point 0 (sommeInitiale i) (sommeInitiale i)
             :: (spec_point i <$> seq 1 (months n)))
          (fst (calculateRecommendation (trancheRevenu i))).

Lemma calculateInvestment_run (i : inputs) (n : Z) (fuel : nat) :
  1 <= n <= 50 -> nombreAnnees i = JS.Z2F n -> (months n < fuel)%nat ->
  calculateInvestment fuel i
  = Some (closed_form i n, snd (calculateRecommendation (trancheRevenu i))).
Proof.
  intros Hn Hy Hfuel. unfold calculateInvestment. rewrite Hy.
  change 1%float with (JS.Z2F (Z.of_nat 1)) at 1.
  change (sommeInitiale i) with (balance i (Nat.pred 1)) at 1.
  rewrite (for_mois_run i n Hn (months n) 1 fuel) by lia.
  unfold closed_form.
  destruct (calculateRecommendation (trancheRevenu i)) as [reco console].
  reflexivity.
Qed.

Lemma Legacy_calculateInvestment_run (i : inputs) (n : Z) (fuel : nat) :
  1 <= n <= 50 -> nombreAnnees i = JS.Z2F n -> (months n < fuel)%nat ->
  Legacy.calculateInvestment fuel i = Some (closed_form i n).
Proof.
  intros Hn Hy Hfuel. unfold Legacy.calculateInvestment. rewrite Hy.
  change 1%float with (JS.Z2F (Z.of_nat 1)) at 1.
  change (sommeInitiale i) with (balance i (Nat.pred 1)) at 1.
  rewrite (for_mois_run i n Hn (months n) 1 fuel) by lia.
  unfold closed_form, calculateRecommendation, Legacy.calculateRecommendation.
  now destruct (find _ TRANCHES).
Qed.

Lemma closed_form_lookup (i : inputs) (n : Z) (m : nat) :
  (1 <= m <= months n)%nat ->
  graphData (closed_form i n) !! m = Some (spec_point i m).
Proof.
  intros Hm. unfold closed_form. cbn [graphData].
  destruct m as [|m]; [lia|]. rewrite lookup_cons.
  rewrite list_lookup_fmap. rewrite lookup_seq_lt by lia. reflexivity.
Qed.

Lemma closed_form_length (i : inputs) (n : Z) :
  length (graphData (closed_form i n)) = S (months n).
Proof. unfold closed_form. cbn [graphData length]. now rewrite length_fmap, length_seq. Qed.

(** ** The validator on Numbers *)

Module ValidateFacts.
Import FloatOrder.

(** The unit of the integers: the key of the Number 1. *)
Definition unit_key : Z := 2 ^ 1074.

Lemma unit_key_pos : 0 < unit_key.
Proof. reflexivity. Qed.

Lemma fkey_0 : fkey 0 = Some 0.
Proof. reflexivity. Qed.

Lemma fkey_1 : fkey 1 = Some (1 * unit_key).
Proof. vm_compute. reflexivity. Qed.

Lemma fkey_50 : fkey 50 = Some (50 * unit_key).
Proof. vm_compute. reflexivity. Qed.

Lemma fkey_100 : fkey 100 = Some (100 * unit_key).
Proof. vm_compute. reflexivity. Qed.

(** The four numeric branches, unfolded. *)
Lemma validateInput_sommeInitiale (errs : gmap string string) (v : float) :
  validateInput errs "sommeInitiale" v =
  Validation (JS.Math_max 0 v)
    (if (v <? 0)%float
     then <["sommeInitiale" := "Le montant doit être positif"]> errs
     else delete "sommeInitiale" errs).
Proof. reflexivity. Qed.

Lemma validateInput_mensualite (errs : gmap string string) (v : float) :
  validateInput errs "mensualite" v =
  Validation (JS.Math_max 0 v)
    (if (v <? 0)%float
     then <["mensualite" := "Le versement doit être positif"]> errs
     else delete "mensualite" errs).
Proof. reflexivity. Qed.

Lemma validateInput_tauxAnnuel (errs : gmap string string) (v : float) :
  validateInput errs "tauxAnnuel" v =
  Validation (JS.Math_min 100 (JS.Math_max 0 v))
    (if (v <? 0)%float || (100 <? v)%float
     then <["tauxAnnuel" := "Le taux doit être entre 0 et 100%"]> errs
     else delete "tauxAnnuel" errs).
Proof. reflexivity. Qed.

Lemma validateInput_nombreAnnees (errs : gmap string string) (v : float) :
  validateInput errs "nombreAnnees" v =
  Validation (JS.Math_min 50 (JS.Math_max 1 v))
    (if (v <? 1)%float || (50 <? v)%float
     then <["nombreAnnees" := "La durée doit être entre 1 et 50 ans"]> errs
     else delete "nombreAnnees" errs).
Proof. reflexivity. Qed.

(** A lower bound alone: the value is [max lo v], and a message is there
    exactly when the value differs from [v]. *)
Lemma clamp_below (errs : gmap string string) (f msg : string) (v : float) (kv : Z) :
  fkey v = Some kv ->
  let val := JS.Math_max 0 v in
  let es := if (v <? 0)%float then <[f := msg]> errs else delete f errs in
  (0 <=? val)%float = true /\
  (is_Some (es !! f) <-> (val =? v)%float = false).
Proof.
  intros Hv val es. subst val es.
  destruct (Math_max_fkey 0 v 0 kv fkey_0 Hv) as [Hk _].
  rewrite leb_fkey, eqb_fkey, ltb_fkey, Hk, Hv, fkey_0.
  split; [apply Z.leb_le; lia|].
  destruct (Z.ltb_spec kv 0).
  - rewrite lookup_insert_eq. split; [intros _; apply Z.eqb_neq; lia | eauto].
  - rewrite lookup_delete_eq. split; [intros [? ?]; discriminate|].
    intros H'. apply Z.eqb_neq in H'. lia.
Qed.

(** Both bounds: the value is [min hi (max lo v)], it lies in [lo, hi], and
    a message is there exactly when the value differs from [v]. *)
Lemma clamp_between (errs : gmap string string) (f msg : string)
    (lo hi v : float) (klo khi kv : Z) :
  fkey lo = Some klo -> fkey hi = Some khi -> klo <= khi ->
  fkey v = Some kv ->
  let val := JS.Math_min hi (JS.Math_max lo v) in
  let es := if (v <? lo)%float || (hi <? v)%float
            then <[f := msg]> errs else delete f errs in
  (lo <=? val)%float && (val <=? hi)%float = true /\
  (is_Some (es !! f) <-> (val =? v)%float = false).
Proof.
  intros Hlo Hhi Hle Hv val es. subst val es.
  destruct (Math_max_fkey lo v klo kv Hlo Hv) as [Hk1 _].
  destruct (Math_min_fkey hi _ khi _ Hhi Hk1) as [Hk2 _].
  rewrite !leb_fkey, eqb_fkey, !ltb_fkey, Hk2, Hv, Hlo, Hhi.
  split.
  - apply andb_true_intro. split; apply Z.leb_le; lia.
  - destruct (Z.ltb_spec kv klo), (Z.ltb_spec khi kv); cbn [orb];
      rewrite ?lookup_insert_eq, ?lookup_delete_eq;
      (split; [intros [? HS]; try discriminate HS; apply Z.eqb_neq; lia
              | intros H'; apply Z.eqb_neq in H'; try lia; eauto]).
Qed.

End ValidateFacts.

(** ** Adding nothing *)

Module ZeroFacts.
Import FloatOrder.

(** A non-negative real is a zero or a positive finite Number. *)
Lemma nonneg_real_inv (x : float) :
  nonneg_real x = true ->
  (exists s, Prim2SF x = S754_zero s) \/
  (exists m e, Prim2SF x = S754_finite false m e).
Proof.
  unfold nonneg_real. rewrite leb_fkey, ltb_fkey. unfold fkey.
  pose proof (Prim2SF_valid x) as Hv.
  destruct (Prim2SF x) as [s | s | | s m e]; cbn [key]; intros H.
  - left. eauto.
  - exfalso. apply andb_prop in H. destruct H as [H1 H2].
    change (key (Prim2SF infinity)) with (Some inf_key) in *.
    apply Z.leb_le in H1. apply Z.ltb_lt in H2.
    assert (0 < inf_key) by reflexivity.
    destruct s; cbn [cond_Zopp] in *; lia.
  - discriminate.
  - right. destruct s; [|eauto]. exfalso.
    apply andb_prop in H. destruct H as [H1 _].
    change (key (Prim2SF 0)) with (Some 0) in H1. apply Z.leb_le in H1.
    pose proof (bounded_key m e Hv). cbn [cond_Zopp] in H1. lia.
Qed.

Lemma nonneg_real_not_nan (x : float) : nonneg_real x = true -> is_nan x = false.
Proof.
  intros H. rewrite is_nan_fkey. unfold fkey.
  destruct (nonneg_real_inv x H) as [[s ->] | (m & e & ->)]; reflexivity.
Qed.

(** [x + c * 0] is [x], as a Number, for real [x] and [c]. *)
Lemma add_mul_zero (x c : float) :
  nonneg_real x = true -> nonneg_real c = true ->
  (x + c * 0 =? x)%float = true.
Proof.
  intros Hx Hc.
  assert (Hm : exists s, Prim2SF (c * 0)%float = S754_zero s).
  { rewrite mul_spec. change (Prim2SF 0) with (S754_zero false).
    destruct (nonneg_real_inv c Hc) as [[s ->] | (m & e & ->)]; cbn; eauto. }
  destruct Hm as [s0 Hm].
  rewrite eqb_fkey. unfold fkey at 1. rewrite add_spec, Hm.
  unfold fkey.
  destruct (nonneg_real_inv x Hx) as [[s ->] | (m & e & ->)].
  - destruct s, s0; cbn; reflexivity.
  - cbn [SF64add SFadd key]. apply Z.eqb_refl.
Qed.

End ZeroFacts.

(** * The claims of the specification *)

(** ** The simulation *)

Lemma default_inputs_validated : validated default_inputs 3.
Proof. unfold validated. repeat split; try reflexivity; lia. Qed.

(** C1: on validated parameters [calculateInvestment] returns, and what it
    returns follows the contribution-then-growth recurrence [balance]: the
    final total is the balance of the last month rounded to two decimals,
    and the point of month [m] carries the rounded balance of month [m]. *)
Theorem simulate_recurrence (i : inputs) (n : Z) (fuel : nat) :
  validated i n -> (months n < fuel)%nat ->
  exists r console,
    calculateInvestment fuel i = Some (r, console) /\
    montantTotal r = round2 (balance i (months n)) /\
    forall m, (1 <= m <= months n)%nat ->
      exists p, graphData r !! m = Some p /\ total p = round2 (balance i m).
Proof.
  intros (_ & _ & _ & Hn & Hy) Hfuel.
  eexists _, _. split; [apply (calculateInvestment_run i n fuel Hn Hy Hfuel)|].
  split; [reflexivity|].
  intros m Hm. exists (spec_point i m). split; [|reflexivity].
  now apply closed_form_lookup.
Qed.

Lemma simulate_recurrence_witness :
  exists r console,
    calculateInvestment 37 default_inputs = Some (r, console) /\
    montantTotal r = round2 (balance default_inputs (months 3)) /\
    forall m, (1 <= m <= months 3)%nat ->
      exists p, graphData r !! m = Some p /\
                total p = round2 (balance default_inputs m).
Proof.
  apply (simulate_recurrence default_inputs 3 37).
  - exact default_inputs_validated.
  - vm_compute. lia.
Defined.

(** C2: on validated parameters the series has [years * 12 + 1] points; the
    first is [{0, initialCapital, initialCapital}], which is the
    contributed amount [initialCapital + monthlyContribution * 0] as a
    Number; the point of index [m >= 1] has period index [m] and contributed
    amount [initialCapital + monthlyContribution * m]. *)
Theorem simulate_series_shape (i : inputs) (n : Z) (fuel : nat) :
  validated i n -> (months n < fuel)%nat ->
  exists r console,
    calculateInvestment fuel i = Some (r, console) /\
    length (graphData r) = (months n + 1)%nat /\
    months n = Z.to_nat (n * 12) /\
    graphData r !! 0%nat = Some (Point 0 (sommeInitiale i) (sommeInitiale i)) /\
    JS.Z2F 0 = 0%float /\
    (sommeInitiale i + mensualite i * JS.Z2F 0 =? sommeInitiale i)%float = true /\
    forall m, (1 <= m <= months n)%nat ->
      exists p, graphData r !! m = Some p /\
        mois p = JS.Z2F (Z.of_nat m) /\
        investi p = (sommeInitiale i + mensualite i * JS.Z2F (Z.of_nat m))%float.
Proof.
  intros (HsI & Hc & _ & Hn & Hy) Hfuel.
  eexists _, _. split; [apply (calculateInvestment_run i n fuel Hn Hy Hfuel)|].
  split; [rewrite closed_form_length; lia|].
  split; [unfold months; f_equal; lia|].
  split; [reflexivity|]. split; [reflexivity|].
  split; [now apply ZeroFacts.add_mul_zero|].
  intros m Hm. exists (spec_point i m).
  split; [now apply closed_form_lookup|]. split; reflexivity.
Qed.

Lemma simulate_series_shape_witness :
  exists r console,
    calculateInvestment 37 default_inputs = Some (r, console) /\
    length (graphData r) = (months 3 + 1)%nat /\
    months 3 = Z.to_nat (3 * 12) /\
    graphData r !! 0%nat = Some (Point 0 0 0) /\
    JS.Z2F 0 = 0%float /\
    (0 + 120 * JS.Z2F 0 =? 0)%float = true /\
    forall m, (1 <= m <= months 3)%nat ->
      exists p, graphData r !! m = Some p /\
        mois p = JS.Z2F (Z.of_nat m) /\
        investi p = (0 + 120 * JS.Z2F (Z.of_nat m))%float.
Proof.
  apply (simulate_series_shape default_inputs 3 37).
  - exact default_inputs_validated.
  - vm_compute. lia.
Defined.

(** C3: on validated parameters the invested amount of the result is the
    Number [initialCapital + monthlyContribution * (years * 12)], computed
    once from the parameters (it is not rounded, and it is not accumulated
    by the loop); [years * 12] is the integer number of months. *)
Theorem simulate_totalContributed (i : inputs) (n : Z) (fuel : nat) :
  validated i n -> (months n < fuel)%nat ->
  exists r console,
    calculateInvestment fuel i = Some (r, console) /\
    montantInvesti r =
      (sommeInitiale i + mensualite i * (nombreAnnees i * 12))%float /\
    (nombreAnnees i * 12)%float = JS.Z2F (n * 12).
Proof.
  intros (_ & _ & _ & Hn & Hy) Hfuel.
  eexists _, _. split; [apply (calculateInvestment_run i n fuel Hn Hy Hfuel)|].
  rewrite Hy. split; [reflexivity|].
  rewrite Counter.Z2F_months by lia. f_equal. lia.
Qed.

Lemma simulate_totalContributed_witness :
  exists r console,
    calculateInvestment 37 default_inputs = Some (r, console) /\
    montantInvesti r = (0 + 120 * (3 * 12))%float /\
    (3 * 12)%float = JS.Z2F (3 * 12).
Proof.
  apply (simulate_totalContributed default_inputs 3 37).
  - exact default_inputs_validated.
  - vm_compute. lia.
Defined.

(** The parameters that tell rounding the balance from rounding the gain:
    four thousandths of initial capital, no contribution, no interest, one
    year. *)
Definition small_capital : inputs := Inputs 0.004 0 0 1 "moins-2000".

Lemma small_capital_validated : validated small_capital 1.
Proof. unfold validated. repeat split; try reflexivity; lia. Qed.

(** C4, as stated, fails: for [small_capital] the balance stays at 0.004,
    the final total is 0 and the invested amount 0.004, so that
    [finalTotal - totalContributed] is -0.004, while the gain of the result
    is 0. *)
Lemma totalGain_counterexample :
  validated small_capital 1 /\
  exists r console,
    calculateInvestment 13 small_capital = Some (r, console) /\
    gains r = 0%float /\
    (montantTotal r - montantInvesti r)%float = (-0.004)%float /\
    (gains r =? montantTotal r - montantInvesti r)%float = false.
Proof.
  split; [exact small_capital_validated|].
  eexists _, _. split; [vm_compute; reflexivity|].
  repeat split; vm_compute; reflexivity.
Qed.

(** C4, amended: on validated parameters the gain of the result is the
    difference between the final balance, not rounded, and the invested
    amount, and this difference is what is rounded to two decimals. *)
Theorem simulate_totalGain (i : inputs) (n : Z) (fuel : nat) :
  validated i n -> (months n < fuel)%nat ->
  exists r console,
    calculateInvestment fuel i = Some (r, console) /\
    gains r = round2 (balance i (months n) - montantInvesti r)%float.
Proof.
  intros (_ & _ & _ & Hn & Hy) Hfuel.
  eexists _, _. split; [apply (calculateInvestment_run i n fuel Hn Hy Hfuel)|].
  reflexivity.
Qed.

Lemma simulate_totalGain_witness :
  exists r console,
    calculateInvestment 13 small_capital = Some (r, console) /\
    gains r = round2 (balance small_capital (months 1) - montantInvesti r)%float.
Proof.
  apply (simulate_totalGain small_capital 1 13).
  - exact small_capital_validated.
  - vm_compute. lia.
Defined.

(** ** The validator *)

(** C5: what the code does on a value that is not a number.  Every
    comparison with NaN is false and [Math.max] and [Math.min] return NaN,
    so each numeric field gets NaN back, and its message is removed; the
    earlier revision's [|| 0] turned NaN into 0. *)
Theorem validateInput_nan (errs : gmap string string) :
  validateInput errs "sommeInitiale" nan = Validation nan (delete "sommeInitiale" errs) /\
  validateInput errs "mensualite" nan = Validation nan (delete "mensualite" errs) /\
  validateInput errs "tauxAnnuel" nan = Validation nan (delete "tauxAnnuel" errs) /\
  validateInput errs "nombreAnnees" nan = Validation nan (delete "nombreAnnees" errs) /\
  Legacy.or_zero nan = 0%float.
Proof. repeat split. Qed.

(** C6: for a Number [v] that is not NaN, each numeric field gets its
    documented clamp of [v], which lies within the field's bounds, and the
    field has a message exactly when the clamp is not [v]; 150 as a rate
    gives 100, 0 as a duration gives 1 and -50 as a capital gives 0, each
    with the field's message. *)
Theorem validateInput_clamps (errs : gmap string string) (v : float) :
  is_nan v = false ->
  (let r := validateInput errs "sommeInitiale" v in
   value r = JS.Math_max 0 v /\
   (0 <=? value r)%float = true /\
   (is_Some (errors r !! "sommeInitiale") <-> (value r =? v)%float = false)) /\
  (let r := validateInput errs "mensualite" v in
   value r = JS.Math_max 0 v /\
   (0 <=? value r)%float = true /\
   (is_Some (errors r !! "mensualite") <-> (value r =? v)%float = false)) /\
  (let r := validateInput errs "tauxAnnuel" v in
   value r = JS.Math_min 100 (JS.Math_max 0 v) /\
   (0 <=? value r)%float && (value r <=? 100)%float = true /\
   (is_Some (errors r !! "tauxAnnuel") <-> (value r =? v)%float = false)) /\
  (let r := validateInput errs "nombreAnnees" v in
   value r = JS.Math_min 50 (JS.Math_max 1 v) /\
   (1 <=? value r)%float && (value r <=? 50)%float = true /\
   (is_Some (errors r !! "nombreAnnees") <-> (value r =? v)%float = false)) /\
  (let r := validateInput errs "tauxAnnuel" 150 in
   value r = 100%float /\
   errors r !! "tauxAnnuel" = Some "Le taux doit être entre 0 et 100%") /\
  (let r := validateInput errs "nombreAnnees" 0 in
   value r = 1%float /\
   errors r !! "nombreAnnees" = Some "La durée doit être entre 1 et 50 ans") /\
  (let r := validateInput errs "sommeInitiale" (-50) in
   value r = 0%float /\
   errors r !! "sommeInitiale" = Some "Le montant doit être positif").
Proof.
  intros Hv. destruct (FloatOrder.not_nan_fkey v Hv) as [kv Hk].
  pose proof ValidateFacts.unit_key_pos as HU.
  split; [|split; [|split; [|split; [|split; [|split]]]]]; cbv zeta.
  - rewrite ValidateFacts.validateInput_sommeInitiale.
    split; [reflexivity|]. apply (ValidateFacts.clamp_below errs _ _ v kv Hk).
  - rewrite ValidateFacts.validateInput_mensualite.
    split; [reflexivity|]. apply (ValidateFacts.clamp_below errs _ _ v kv Hk).
  - rewrite ValidateFacts.validateInput_tauxAnnuel.
    split; [reflexivity|].
    apply (ValidateFacts.clamp_between errs _ _ 0 100 v _ _ kv
             ValidateFacts.fkey_0 ValidateFacts.fkey_100); [lia | exact Hk].
  - rewrite ValidateFacts.validateInput_nombreAnnees.
    split; [reflexivity|].
    apply (ValidateFacts.clamp_between errs _ _ 1 50 v _ _ kv
             ValidateFacts.fkey_1 ValidateFacts.fkey_50); [lia | exact Hk].
  - rewrite ValidateFacts.validateInput_tauxAnnuel.
    split; [reflexivity|]. apply lookup_insert_eq.
  - rewrite ValidateFacts.validateInput_nombreAnnees.
    split; [reflexivity|]. apply lookup_insert_eq.
  - rewrite ValidateFacts.validateInput_sommeInitiale.
    split; [reflexivity|]. apply lookup_insert_eq.
Qed.

Lemma validateInput_clamps_witness :
  is_nan 150 = false /\
  value (validateInput ∅ "tauxAnnuel" 150) = JS.Math_min 100 (JS.Math_max 0 150) /\
  (is_Some (errors (validateInput ∅ "tauxAnnuel" 150) !! "tauxAnnuel") <->
   (value (validateInput ∅ "tauxAnnuel" 150) =? 150)%float = false).
Proof.
  split; [reflexivity|].
  destruct (validateInput_clamps ∅ 150 eq_refl) as (_ & _ & (H1 & _ & H2) & _).
  split; [exact H1 | exact H2].
Defined.

(** C10: a call changes no entry of the errors map other than the entry of
    the field it validates, and with a name that is none of the four
    numeric fields it returns the map and the value as they were given. *)
Theorem validateInput_frame (errs : gmap string string) (name : string) (v : float) :
  (forall k, k <> name ->
     errors (validateInput errs name v) !! k = errs !! k) /\
  (name <> "sommeInitiale" -> name <> "mensualite" ->
   name <> "tauxAnnuel" -> name <> "nombreAnnees" ->
   validateInput errs name v = Validation v errs).
Proof.
  unfold validateInput. split.
  - intros k Hk.
    repeat (match goal with
            | |- context [String.eqb name ?b] =>
                destruct (String.eqb_spec name b) as [-> | ?]
            end; cbn [errors]);
      try reflexivity;
      match goal with
      | |- context [if ?c then _ else _] => destruct c
      end;
      rewrite ?lookup_insert_ne, ?lookup_delete_ne by congruence; reflexivity.
  - intros H1 H2 H3 H4.
    rewrite (proj2 (String.eqb_neq _ _) H1), (proj2 (String.eqb_neq _ _) H2),
      (proj2 (String.eqb_neq _ _) H3), (proj2 (String.eqb_neq _ _) H4).
    reflexivity.
Qed.

(** ** The bracket lookup *)

Lemma find_unknown (trancheId : string) :
  ~ In trancheId (map id TRANCHES) ->
  List.find (fun t => String.eqb (id t) trancheId) TRANCHES = None.
Proof.
  intros H. destruct (find _ TRANCHES) as [t|] eqn:Hf; [|reflexivity].
  exfalso. apply find_some in Hf. destruct Hf as [Hin Heq].
  apply H. apply String.eqb_eq in Heq. subst. now apply in_map.
Qed.

(** C8: for an id that is none of the five of the table the lookup returns
    the zero recommendation (and one console warning), in both revisions;
    on validated parameters with such an id the simulation returns its
    result, in which the recommendation is the zero recommendation. *)
Theorem unknown_bracket_zero (i : inputs) (n : Z) (fuel : nat) :
  ~ In (trancheRevenu i) (map id TRANCHES) ->
  validated i n -> (months n < fuel)%nat ->
  calculateRecommendation (trancheRevenu i)
    = (Recommandation 0 0, ["Tranche non trouvée: " +:+ trancheRevenu i]) /\
  Legacy.calculateRecommendation (trancheRevenu i) = Recommandation 0 0 /\
  exists r,
    calculateInvestment fuel i
      = Some (r, ["Tranche non trouvée: " +:+ trancheRevenu i]) /\
    Legacy.calculateInvestment fuel i = Some r /\
    recommandation r = Recommandation 0 0 /\
    length (graphData r) = (months n + 1)%nat.
Proof.
  intros Hid (_ & _ & _ & Hn & Hy) Hfuel.
  assert (Hreco : calculateRecommendation (trancheRevenu i)
    = (Recommandation 0 0, ["Tranche non trouvée: " +:+ trancheRevenu i])).
  { unfold calculateRecommendation. now rewrite find_unknown. }
  split; [exact Hreco|].
  split; [unfold Legacy.calculateRecommendation; now rewrite find_unknown|].
  exists (closed_form i n).
  rewrite (calculateInvestment_run i n fuel Hn Hy Hfuel),
    (Legacy_calculateInvestment_run i n fuel Hn Hy Hfuel).
  rewrite Hreco. split; [reflexivity|]. split; [reflexivity|].
  split; [unfold closed_form; cbn [recommandation]; now rewrite Hreco|].
  rewrite closed_form_length. lia.
Qed.

Lemma unknown_bracket_zero_witness :
  calculateRecommendation "inconnue"
    = (Recommandation 0 0, ["Tranche non trouvée: inconnue"]) /\
  Legacy.calculateRecommendation "inconnue" = Recommandation 0 0 /\
  exists r,
    calculateInvestment 37 (Inputs 0 120 3 3 "inconnue")
      = Some (r, ["Tranche non trouvée: inconnue"]) /\
    Legacy.calculateInvestment 37 (Inputs 0 120 3 3 "inconnue") = Some r /\
    recommandation r = Recommandation 0 0 /\
    length (graphData r) = (months 3 + 1)%nat.
Proof.
  apply (unknown_bracket_zero (Inputs 0 120 3 3 "inconnue") 3 37).
  - cbn. intros H. repeat (destruct H as [H|H]; [discriminate H|]). exact H.
  - unfold validated. repeat split; try reflexivity; lia.
  - vm_compute. lia.
Defined.

(** C9: for each of the five brackets of the table the lookup returns the
    midpoint of the bracket times its rate, rounded to the nearest integer,
    and the rate times 100, in both revisions and without a console
    message; for ['moins-2000'] these are 50 and 5. *)
Theorem recommendation_formula (t : tranche) :
  In t TRANCHES ->
  calculateRecommendation (id t)
    = (Recommandation
         (JS.Math_round ((min t + max t) / 2 * tauxEpargneRecommande t)%float)
         (tauxEpargneRecommande t * 100)%float, []) /\
  Legacy.calculateRecommendation (id t) = fst (calculateRecommendation (id t)) /\
  calculateRecommendation "moins-2000" = (Recommandation 50 5, []).
Proof.
  intros Hin. cbn in Hin.
  repeat (destruct Hin as [<- | Hin]; [repeat split|]).
  destruct Hin.
Qed.

Lemma recommendation_formula_witness :
  calculateRecommendation "plus-8000"
    = (Recommandation
         (JS.Math_round ((8000 + 100000) / 2 * 0.25)%float)
         (0.25 * 100)%float, []) /\
  Legacy.calculateRecommendation "plus-8000"
    = fst (calculateRecommendation "plus-8000") /\
  calculateRecommendation "moins-2000" = (Recommandation 50 5, []).
Proof.
  apply (recommendation_formula (Tranche "plus-8000" "Plus de 8000€" 8000 100000 0.25)).
  cbn. tauto.
Defined.

(** ** Rounding to nearest, ties to even, on the integers of the format *)

(** In units of [2^emin] a finite non-negative Number is an integer with at
    most [prec] significant bits.  [RK N D] is the integer nearest to the
    fraction [N / D] among them (the even one in a tie), and [inf_key] when
    that integer is out of range. *)
Module Rounding.
Import FloatOrder.

(** The constants of binary64, for [lia]. *)
Ltac fconst :=
  change prec with 53 in *; change emax with 1024 in *;
  change emin with (-1074) in *.

(** The quotient of [a] by [b] to the nearest integer, ties to even. *)
Definition rne (a b : Z) : Z :=
  let q := a / b in
  match 2 * (a mod b) ?= b with
  | Lt => q
  | Gt => q + 1
  | Eq => if Z.even q then q else q + 1
  end.

(** The exponent, above [emin], of the binade of [N / D]. *)
Definition gexp (N D : Z) : Z := Z.max (Zdigits2 (N / D) - prec) 0.

Definition RK (N D : Z) : Z :=
  Z.min inf_key (2 ^ gexp N D * rne N (D * 2 ^ gexp N D)).

(** *** [rne] *)

Lemma rne_bounds (a b : Z) : 0 < b -> a / b <= rne a b <= a / b + 1.
Proof.
  intros Hb. unfold rne.
  destruct (2 * (a mod b) ?= b); [destruct (Z.even (a / b))| |]; lia.
Qed.

Lemma rne_exact (q b : Z) : 0 < b -> rne (q * b) b = q.
Proof.
  intros Hb. unfold rne. rewrite Z.mod_mul, Z.div_mul by lia.
  destruct (Z.compare_spec (2 * 0) b); [lia | reflexivity | lia].
Qed.

Lemma rne_exact_1 (q : Z) : rne q 1 = q.
Proof. rewrite <- (Z.mul_1_r q) at 1. apply rne_exact. lia. Qed.

Lemma div_frac_le (a1 b1 a2 b2 : Z) :
  0 < b1 -> 0 < b2 -> a1 * b2 <= a2 * b1 -> a1 / b1 <= a2 / b2.
Proof.
  intros H1 H2 H.
  apply Z.div_le_lower_bound; [lia|].
  pose proof (Z.mul_div_le a1 b1 H1).
  assert (b1 * (b2 * (a1 / b1)) <= b1 * a2) by nia.
  nia.
Qed.

Lemma rne_mono (a1 b1 a2 b2 : Z) :
  0 < b1 -> 0 < b2 -> a1 * b2 <= a2 * b1 -> rne a1 b1 <= rne a2 b2.
Proof.
  intros H1 H2 H.
  pose proof (div_frac_le _ _ _ _ H1 H2 H) as Hq.
  pose proof (rne_bounds a1 b1 H1) as Hb1.
  pose proof (rne_bounds a2 b2 H2) as Hb2.
  destruct (Z.eq_dec (a1 / b1) (a2 / b2)) as [Heq | Hne]; [|lia].
  pose proof (Z.div_mod a1 b1 ltac:(lia)) as E1.
  pose proof (Z.div_mod a2 b2 ltac:(lia)) as E2.
  pose proof (Z.mod_pos_bound a1 b1 H1) as R1.
  pose proof (Z.mod_pos_bound a2 b2 H2) as R2.
  assert (Hr : (a1 mod b1) * b2 <= (a2 mod b2) * b1).
  { rewrite <- Heq in E2. set (q := a1 / b1) in *. clearbody q. nia. }
  unfold rne. rewrite <- Heq.
  set (r1 := a1 mod b1) in *. set (r2 := a2 mod b2) in *.
  destruct (Z.compare_spec (2 * r1) b1), (Z.compare_spec (2 * r2) b2);
    try (destruct (Z.even (a1 / b1))); try lia; exfalso; nia.
Qed.

Lemma rne_le (a b k : Z) : 0 < b -> a <= k * b -> rne a b <= k.
Proof.
  intros Hb H. rewrite <- (rne_exact k 1) by lia.
  apply rne_mono; lia.
Qed.

Lemma rne_ge (a b k : Z) : 0 < b -> k * b <= a -> k <= rne a b.
Proof.
  intros Hb H. rewrite <- (rne_exact k 1) at 1 by lia.
  apply rne_mono; lia.
Qed.

(** *** The number of bits *)

Lemma Zdigits2_bounds (z : Z) :
  0 < z -> 2 ^ (Zdigits2 z - 1) <= z < 2 ^ Zdigits2 z.
Proof.
  destruct z as [|p|p]; try lia. intros _. apply digits2_pos_bounds.
Qed.

Lemma Zdigits2_nonneg (z : Z) : 0 <= Zdigits2 z.
Proof. destruct z; cbn [Zdigits2]; lia. Qed.

Lemma Zdigits2_pos (z : Z) : 0 < z -> 0 < Zdigits2 z.
Proof. destruct z; cbn [Zdigits2]; lia. Qed.

Lemma Zdigits2_unique (z d : Z) :
  2 ^ (d - 1) <= z < 2 ^ d -> 0 < z -> Zdigits2 z = d.
Proof.
  intros [Hlo Hhi] Hz.
  destruct (Zdigits2_bounds z Hz) as [Hlo' Hhi'].
  pose proof (Zdigits2_pos z Hz) as Hd.
  assert (0 < d).
  { destruct (Z_lt_le_dec 0 d) as [|Hle]; [assumption|]. exfalso.
    destruct (Z.eq_dec d 0) as [-> | Hne]; [simpl in Hhi; lia|].
    rewrite Z.pow_neg_r in Hhi by lia. lia. }
  destruct (Z.lt_trichotomy (Zdigits2 z) d) as [Hlt | [Heq | Hgt]]; [|assumption|].
  - assert (2 ^ Zdigits2 z <= 2 ^ (d - 1)) by (apply Z.pow_le_mono_r; lia). lia.
  - assert (2 ^ d <= 2 ^ (Zdigits2 z - 1)) by (apply Z.pow_le_mono_r; lia). lia.
Qed.

Lemma Zdigits2_mono (a b : Z) : 0 <= a <= b -> Zdigits2 a <= Zdigits2 b.
Proof.
  intros [Ha Hab].
  destruct (Z.eq_dec a 0) as [-> | Hne]; [apply Zdigits2_nonneg|].
  destruct (Zdigits2_bounds a ltac:(lia)) as [Hlo _].
  destruct (Zdigits2_bounds b ltac:(lia)) as [_ Hhi].
  destruct (Z_le_gt_dec (Zdigits2 a) (Zdigits2 b)); [assumption|].
  assert (2 ^ Zdigits2 b <= 2 ^ (Zdigits2 a - 1)) by (apply Z.pow_le_mono_r; lia).
  lia.
Qed.

Lemma Zdigits2_lt_pow (z d : Z) : 0 <= z -> 0 <= d -> Zdigits2 z <= d -> z < 2 ^ d.
Proof.
  intros Hz Hd H. destruct (Z.eq_dec z 0) as [-> | Hne].
  - apply Z.pow_pos_nonneg; lia.
  - destruct (Zdigits2_bounds z ltac:(lia)) as [_ Hhi].
    eapply Z.lt_le_trans; [exact Hhi|]. apply Z.pow_le_mono_r; lia.
Qed.

Lemma Zdigits2_mul_pow2 (z k : Z) :
  0 < z -> 0 <= k -> Zdigits2 (z * 2 ^ k) = Zdigits2 z + k.
Proof.
  intros Hz Hk. destruct (Zdigits2_bounds z Hz) as [Hlo Hhi].
  pose proof (Zdigits2_pos z Hz).
  assert (0 < 2 ^ k) by (apply Z.pow_pos_nonneg; lia).
  apply Zdigits2_unique; [|nia].
  replace (Zdigits2 z + k - 1) with (Zdigits2 z - 1 + k) by lia.
  rewrite !Z.pow_add_r by lia. split; nia.
Qed.

(** *** [RK] is monotone *)

Lemma gexp_nonneg (N D : Z) : 0 <= gexp N D.
Proof. unfold gexp. lia. Qed.

Lemma gexp_mono (N1 D1 N2 D2 : Z) :
  0 <= N1 -> 0 < D1 -> 0 < D2 -> N1 * D2 <= N2 * D1 ->
  gexp N1 D1 <= gexp N2 D2.
Proof.
  intros HN H1 H2 H. unfold gexp.
  assert (Zdigits2 (N1 / D1) <= Zdigits2 (N2 / D2)); [|lia].
  apply Zdigits2_mono. split; [apply Z.div_pos; lia|].
  now apply div_frac_le.
Qed.

Lemma div_lt_pow (N D d : Z) :
  0 <= N -> 0 < D -> 0 <= d -> Zdigits2 (N / D) <= d -> N < 2 ^ d * D.
Proof.
  intros HN HD Hd H.
  assert (N / D < 2 ^ d) by (apply Zdigits2_lt_pow; [apply Z.div_pos; lia|lia|lia]).
  pose proof (Z.div_mod N D ltac:(lia)). pose proof (Z.mod_pos_bound N D HD).
  nia.
Qed.

Lemma div_ge_pow (N D : Z) :
  0 <= N -> 0 < D -> 0 < N / D -> 2 ^ (Zdigits2 (N / D) - 1) * D <= N.
Proof.
  intros HN HD Hq.
  destruct (Zdigits2_bounds _ Hq) as [Hlo _].
  pose proof (Z.mul_div_le N D HD). nia.
Qed.

Lemma RK_mono (N1 D1 N2 D2 : Z) :
  0 <= N1 -> 0 < D1 -> 0 < D2 -> N1 * D2 <= N2 * D1 ->
  RK N1 D1 <= RK N2 D2.
Proof.
  intros HN H1 H2 H. unfold RK.
  pose proof (gexp_mono _ _ _ _ HN H1 H2 H) as Hg.
  pose proof (gexp_nonneg N1 D1) as Hg1.
  assert (HN2 : 0 <= N2) by nia.
  apply Z.min_le_compat_l.
  assert (P1 : 0 < 2 ^ gexp N1 D1) by (apply Z.pow_pos_nonneg; lia).
  assert (P2 : 0 < 2 ^ gexp N2 D2) by (apply Z.pow_pos_nonneg; lia).
  destruct (Z.eq_dec (gexp N1 D1) (gexp N2 D2)) as [Heq | Hne].
  - rewrite <- Heq. apply Z.mul_le_mono_nonneg_l; [lia|].
    apply rne_mono; nia.
  - set (g1 := gexp N1 D1) in *. set (g2 := gexp N2 D2) in *.
    apply Z.le_trans with (2 ^ (g2 + prec - 1)).
    + assert (Hr : rne N1 (D1 * 2 ^ g1) <= 2 ^ prec).
      { apply rne_le; [nia|].
        assert (N1 < 2 ^ (g1 + prec) * D1).
        { apply div_lt_pow; try lia; subst g1; unfold gexp; fconst; lia. }
        rewrite Z.pow_add_r in * by (fconst; lia). nia. }
      apply Z.le_trans with (2 ^ g1 * 2 ^ prec); [nia|].
      rewrite <- Z.pow_add_r by (fconst; lia).
      apply Z.pow_le_mono_r; lia.
    + assert (Hd : Zdigits2 (N2 / D2) = g2 + prec).
      { subst g1 g2. unfold gexp in *. fconst. lia. }
      assert (Hq : 0 < N2 / D2).
      { destruct (Z.eq_dec (N2 / D2) 0) as [E|E].
        - rewrite E in Hd. cbn [Zdigits2] in Hd. fconst. lia.
        - pose proof (Z.div_pos N2 D2 HN2 H2). lia. }
      pose proof (div_ge_pow N2 D2 HN2 H2 Hq) as Hlo. rewrite Hd in Hlo.
      assert (Hr : 2 ^ (prec - 1) <= rne N2 (D2 * 2 ^ g2)).
      { apply rne_ge; [nia|].
        replace (g2 + prec - 1) with (prec - 1 + g2) in Hlo by lia.
        rewrite Z.pow_add_r in Hlo by (fconst; lia). nia. }
      replace (g2 + prec - 1) with (g2 + (prec - 1)) by lia.
      rewrite Z.pow_add_r by (fconst; lia). nia.
Qed.

Lemma RK_ext (N1 D1 N2 D2 : Z) :
  0 <= N1 -> 0 < D1 -> 0 <= N2 -> 0 < D2 -> N1 * D2 = N2 * D1 ->
  RK N1 D1 = RK N2 D2.
Proof. intros. apply Z.le_antisymm; apply RK_mono; lia. Qed.

Lemma RK_le_inf (N D : Z) : RK N D <= inf_key.
Proof. unfold RK. lia. Qed.

Lemma RK_nonneg (N D : Z) : 0 <= N -> 0 < D -> 0 <= RK N D.
Proof.
  intros HN HD. unfold RK.
  assert (0 < inf_key) by reflexivity.
  pose proof (gexp_nonneg N D).
  assert (0 < 2 ^ gexp N D) by (apply Z.pow_pos_nonneg; lia).
  assert (0 <= rne N (D * 2 ^ gexp N D)).
  { apply rne_ge; [nia|lia]. }
  apply Z.min_glb; nia.
Qed.

End Rounding.

(** ** The rounding of [SpecFloat], bit by bit *)

(** [binary_round_aux] shifts a mantissa to the exponent of its binade,
    keeping a round bit and a sticky bit, and rounds it there; this is
    [Rounding.rne] on the fraction the mantissa and the two bits describe. *)
Module Bits.
Import FloatOrder Rounding.

(** Where the fraction [A / B] lies between [A / B] (the quotient) and the
    next integer. *)
Definition loc_of (A B : Z) : location :=
  if A mod B =? 0 then loc_Exact else loc_Inexact (2 * (A mod B) ?= B).

Lemma iter_pos_nat {T : Type} (f : T -> T) (n : positive) (x : T) :
  SpecFloat.iter_pos f n x = Nat.iter (Pos.to_nat n) f x.
Proof.
  revert x. induction n as [n IH | n IH |]; intros x; cbn [SpecFloat.iter_pos].
  - rewrite !IH, Pos2Nat.inj_xI, <- Nat.iter_succ_r.
    replace (S (2 * Pos.to_nat n)) with (Pos.to_nat n + S (Pos.to_nat n))%nat by lia.
    now rewrite Nat.iter_add.
  - rewrite !IH, Pos2Nat.inj_xO.
    replace (2 * Pos.to_nat n)%nat with (Pos.to_nat n + Pos.to_nat n)%nat by lia.
    now rewrite Nat.iter_add.
  - reflexivity.
Qed.

Lemma record_of_loc_inv (m : Z) (l : location) :
  shr_m (shr_record_of_loc m l) = m /\
  loc_of_shr_record (shr_record_of_loc m l) = l.
Proof. destruct l as [|[]]; split; reflexivity. Qed.

(** One shift to the right halves the mantissa and doubles the
    denominator. *)
Lemma shr_1_loc (A B : Z) :
  0 <= A -> 0 < B ->
  shr_1 (shr_record_of_loc (A / B) (loc_of A B))
  = shr_record_of_loc (A / (B * 2)) (loc_of A (B * 2)).
Proof.
  intros HA HB.
  assert (Hq : A / (B * 2) = A / B / 2) by (rewrite Z.div_div; lia).
  assert (Hr : A mod (B * 2) = A mod B + B * ((A / B) mod 2))
    by (apply Z.rem_mul_r; lia).
  pose proof (Z.mod_pos_bound A B HB) as Hb.
  pose proof (Z.div_pos A B HA HB) as Hm.
  unfold loc_of. rewrite Hq, Hr.
  set (r := A mod B) in *. set (m := A / B) in *. clearbody r m.
  assert (Hshape :
    match m with
    | Z0 => m mod 2 = 0 /\ m / 2 = 0
    | Zpos xH => m mod 2 = 1 /\ m / 2 = 0
    | Zpos (xO p) => m mod 2 = 0 /\ m / 2 = Zpos p
    | Zpos (xI p) => m mod 2 = 1 /\ m / 2 = Zpos p
    | Zneg _ => False
    end).
  { destruct m as [|[p|p|]|p]; try lia; try (split; reflexivity).
    - rewrite Pos2Z.inj_xI.
      pose proof (Z.div_mod (2 * Zpos p + 1) 2 ltac:(lia)).
      pose proof (Z.mod_pos_bound (2 * Zpos p + 1) 2 ltac:(lia)). lia.
    - rewrite Pos2Z.inj_xO.
      pose proof (Z.div_mod (2 * Zpos p) 2 ltac:(lia)).
      pose proof (Z.mod_pos_bound (2 * Zpos p) 2 ltac:(lia)). lia. }
  destruct m as [|[p|p|]|p]; try contradiction; destruct Hshape as [-> ->];
    rewrite ?Z.mul_0_r, ?Z.mul_1_r, ?Z.add_0_r;
    destruct (Z.eqb_spec r 0) as [-> | Hne];
    try (destruct (Z.eqb_spec (r + B) 0); [lia|]);
    try (destruct (Z.eqb_spec (0 + B) 0); [lia|]).
  all: try (destruct (Z.compare_spec (2 * 0) B); [lia| |lia]).
  all: try (destruct (Z.compare_spec (2 * (0 + B)) (B * 2)); [|lia|lia]).
  all: try reflexivity.
  all: destruct (Z.compare_spec (2 * r) B);
    try (destruct (Z.compare_spec (2 * r) (B * 2)); try lia);
    try (destruct (Z.compare_spec (2 * (r + B)) (B * 2)); try lia);
    reflexivity.
Qed.

Lemma shr_nat_loc (A B : Z) (n : nat) :
  0 <= A -> 0 < B ->
  Nat.iter n shr_1 (shr_record_of_loc (A / B) (loc_of A B))
  = shr_record_of_loc (A / (B * 2 ^ Z.of_nat n)) (loc_of A (B * 2 ^ Z.of_nat n)).
Proof.
  intros HA HB. induction n as [|n IH].
  - cbn [Nat.iter]. change (2 ^ Z.of_nat 0) with 1. now rewrite Z.mul_1_r.
  - rewrite Nat.iter_succ, IH.
    assert (0 < 2 ^ Z.of_nat n) by (apply Z.pow_pos_nonneg; lia).
    rewrite shr_1_loc by nia.
    rewrite Nat2Z.inj_succ, Z.pow_succ_r by lia.
    replace (B * 2 ^ Z.of_nat n * 2) with (B * (2 * 2 ^ Z.of_nat n)) by lia.
    reflexivity.
Qed.

Lemma shr_loc (A B e n : Z) :
  0 <= A -> 0 < B -> 0 <= n ->
  shr (shr_record_of_loc (A / B) (loc_of A B)) e n
  = (shr_record_of_loc (A / (B * 2 ^ n)) (loc_of A (B * 2 ^ n)), e + n).
Proof.
  intros HA HB Hn. destruct n as [|p|p]; [| |lia].
  - cbn [shr]. change (2 ^ 0) with 1. now rewrite Z.mul_1_r, Z.add_0_r.
  - cbn [shr]. rewrite iter_pos_nat, shr_nat_loc by assumption.
    now rewrite positive_nat_Z.
Qed.

Lemma round_nearest_even_rne (A B : Z) :
  0 < B -> round_nearest_even (A / B) (loc_of A B) = rne A B.
Proof.
  intros HB. unfold loc_of, rne.
  pose proof (Z.mod_pos_bound A B HB).
  destruct (Z.eqb_spec (A mod B) 0) as [E | E].
  - rewrite E. destruct (Z.compare_spec (2 * 0) B); [lia | reflexivity | lia].
  - destruct (2 * (A mod B) ?= B); reflexivity.
Qed.

(** *** The last step: renormalisation and overflow *)

Definition finish (mrs : shr_record) (e : Z) : spec_float :=
  match shr_m mrs with
  | Z0 => S754_zero false
  | Zpos m =>
      if e <=? emax - prec then S754_finite false m e else S754_infinity false
  | Zneg _ => S754_nan
  end.

Lemma binary_round_aux_unfold (m e : Z) (l : location) :
  binary_round_aux prec emax false m e l =
  let mrs1 := fst (shr_fexp prec emax m e l) in
  let e1 := snd (shr_fexp prec emax m e l) in
  let m1 := round_nearest_even (shr_m mrs1) (loc_of_shr_record mrs1) in
  finish (fst (shr_fexp prec emax m1 e1 loc_Exact))
         (snd (shr_fexp prec emax m1 e1 loc_Exact)).
Proof.
  unfold binary_round_aux, finish.
  destruct (shr_fexp prec emax m e l) as [mrs1 e1]. cbn [fst snd].
  destruct (shr_fexp prec emax _ e1 loc_Exact) as [mrs2 e2]. reflexivity.
Qed.

Lemma fexp_eq (x : Z) : fexp prec emax x = Z.max (x - prec) emin.
Proof. reflexivity. Qed.

Lemma shr_nop (mrs : shr_record) (e n : Z) : n <= 0 -> shr mrs e n = (mrs, e).
Proof. destruct n; [reflexivity | lia | reflexivity]. Qed.

Lemma finish_spec (M e : Z) :
  0 <= M <= 2 ^ prec -> emin <= e -> (emin < e -> 2 ^ (prec - 1) <= M) ->
  let r := finish (fst (shr_fexp prec emax M e loc_Exact))
                  (snd (shr_fexp prec emax M e loc_Exact)) in
  valid_binary r = true /\
  key r = Some (Z.min inf_key (M * 2 ^ (e - emin))).
Proof.
  intros [HM0 HM1] He Hnorm. cbv zeta.
  assert (Hinf : 0 < inf_key) by reflexivity.
  assert (Hp : 0 < 2 ^ (e - emin)) by (apply Z.pow_pos_nonneg; lia).
  destruct (Z.eq_dec M 0) as [-> | HMne].
  - (* zero *)
    unfold shr_fexp. cbn [Zdigits2 Z.add shr_record_of_loc].
    rewrite fexp_eq.
    rewrite shr_nop by (fconst; lia).
    cbn [fst snd finish shr_m valid_binary key]. split; reflexivity.
  - destruct (Z.eq_dec M (2 ^ prec)) as [-> | HMne2].
    + (* the mantissa has one bit too many *)
      unfold shr_fexp. rewrite fexp_eq.
      change (Zdigits2 (2 ^ prec)) with (prec + 1).
      replace (Z.max (prec + 1 + e - prec) emin - e) with 1 by (fconst; lia).
      cbn [shr shr_record_of_loc]. cbn [fst snd].
      change (SpecFloat.iter_pos shr_1 1 {| shr_m := 2 ^ prec; shr_r := false; shr_s := false |})
        with {| shr_m := 2 ^ (prec - 1); shr_r := false; shr_s := false |}.
      unfold finish. cbn [shr_m].
      change (2 ^ (prec - 1)) with (Zpos (Z.to_pos (2 ^ (prec - 1)))).
      cbv iota beta.
      assert (Hkey : Zpos (Z.to_pos (2 ^ (prec - 1))) * 2 ^ (e + 1 - emin)
                     = 2 ^ prec * 2 ^ (e - emin)).
      { replace (e + 1 - emin) with (1 + (e - emin)) by lia.
        rewrite Z.pow_add_r by lia. change (Zpos (Z.to_pos (2 ^ (prec - 1)))) with (2 ^ (prec - 1)).
        change (2 ^ prec) with (2 ^ (prec - 1) * 2 ^ 1). ring. }
      destruct (Z.leb_spec (e + 1) (emax - prec)) as [Hle | Hgt].
      * assert (Hb : bounded prec emax (Z.to_pos (2 ^ (prec - 1))) (e + 1) = true).
        { unfold bounded, canonical_mantissa. rewrite fexp_eq.
          change (Zpos (digits2_pos (Z.to_pos (2 ^ (prec - 1))))) with prec.
          apply andb_true_intro. split; [apply Z.eqb_eq; fconst; lia | apply Z.leb_le; lia]. }
        cbn [valid_binary key cond_Zopp]. split; [exact Hb|].
        pose proof (bounded_key _ _ Hb) as Hk. rewrite Hkey in *. f_equal. lia.
      * cbn [valid_binary key cond_Zopp]. split; [reflexivity|]. f_equal.
        assert (inf_key <= 2 ^ prec * 2 ^ (e - emin)); [|lia].
        rewrite <- Z.pow_add_r by (fconst; lia).
        apply Z.pow_le_mono_r; fconst; lia.
    + (* the mantissa fits *)
      assert (Hd : Zdigits2 M <= prec).
      { destruct (Z_le_gt_dec (Zdigits2 M) prec) as [|Hgt]; [assumption|]. exfalso.
        destruct (Zdigits2_bounds M ltac:(lia)) as [Hlo _].
        assert (2 ^ prec <= 2 ^ (Zdigits2 M - 1)) by (apply Z.pow_le_mono_r; fconst; lia).
        lia. }
      assert (Hdn : emin < e -> Zdigits2 M = prec).
      { intros Hlt. apply Zdigits2_unique; [|lia]. split; [auto|lia]. }
      unfold shr_fexp. rewrite fexp_eq.
      rewrite shr_nop by (fconst; lia).
      cbn [fst snd shr_record_of_loc]. unfold finish. cbn [shr_m].
      destruct M as [|p|p]; try lia.
      destruct (Z.leb_spec e (emax - prec)) as [Hle | Hgt].
      * assert (Hb : bounded prec emax p e = true).
        { unfold bounded, canonical_mantissa. rewrite fexp_eq.
          cbn [Zdigits2] in Hd, Hdn.
          apply andb_true_intro. split; [apply Z.eqb_eq | apply Z.leb_le; lia].
          destruct (Z.eq_dec e emin) as [-> | Hne]; [fconst; lia|].
          rewrite Hdn by lia. fconst. lia. }
        cbn [valid_binary key cond_Zopp]. split; [exact Hb|].
        pose proof (bounded_key _ _ Hb) as Hk. f_equal. lia.
      * cbn [valid_binary key cond_Zopp]. split; [reflexivity|]. f_equal.
        assert (inf_key <= Zpos p * 2 ^ (e - emin)); [|lia].
        assert (H1 : 2 ^ (prec - 1) <= Zpos p) by (apply Hnorm; fconst; lia).
        assert (H2 : 2 ^ (emax - prec + 1 - emin) <= 2 ^ (e - emin))
          by (apply Z.pow_le_mono_r; fconst; lia).
        assert (H3 : inf_key = 2 ^ (prec - 1) * 2 ^ (emax - prec + 1 - emin)) by reflexivity.
        rewrite H3. apply Z.mul_le_mono_nonneg; try lia.
        all: apply Z.pow_nonneg; lia.
Qed.

(** *** [binary_round_aux] *)

(** The fraction [A / B] in units of [2^e], with [e] at or below the
    exponent of its binade: [binary_round_aux] returns a valid Number, whose
    key is [A / B] rounded at the exponent of the binade. *)
Lemma binary_round_aux_spec (A B e : Z) :
  0 <= A -> 0 < B -> e <= fexp prec emax (Zdigits2 (A / B) + e) ->
  let e' := fexp prec emax (Zdigits2 (A / B) + e) in
  let r := binary_round_aux prec emax false (A / B) e (loc_of A B) in
  valid_binary r = true /\
  key r = Some (Z.min inf_key (rne A (B * 2 ^ (e' - e)) * 2 ^ (e' - emin))).
Proof.
  intros HA HB Hpre e' r. subst r.
  pose proof (Zdigits2_nonneg (A / B)) as Hd0.
  pose proof (Z.div_pos A B HA HB) as Hm0.
  assert (He' : emin <= e') by (subst e'; rewrite fexp_eq; lia).
  assert (Hn : 0 <= e' - e) by lia.
  assert (Hpn : 0 < 2 ^ (e' - e)) by (apply Z.pow_pos_nonneg; lia).
  assert (H1 : shr_fexp prec emax (A / B) e (loc_of A B)
               = (shr_record_of_loc (A / (B * 2 ^ (e' - e)))
                                    (loc_of A (B * 2 ^ (e' - e))), e')).
  { unfold shr_fexp. fold e'. rewrite shr_loc by assumption. f_equal. lia. }
  rewrite binary_round_aux_unfold. cbv zeta. rewrite H1. cbn [fst snd].
  destruct (record_of_loc_inv (A / (B * 2 ^ (e' - e))) (loc_of A (B * 2 ^ (e' - e))))
    as [-> ->].
  rewrite round_nearest_even_rne by nia.
  apply finish_spec; [split| assumption |].
  - apply rne_ge; [nia | lia].
  - apply rne_le; [nia|].
    assert (HAlt : A < 2 ^ Zdigits2 (A / B) * B) by (apply div_lt_pow; lia).
    assert (Hle : 2 ^ Zdigits2 (A / B) <= 2 ^ (prec + (e' - e))).
    { apply Z.pow_le_mono_r; [lia|]. subst e'. rewrite fexp_eq in *. lia. }
    rewrite Z.pow_add_r in Hle by (fconst; lia). nia.
  - intros Hlt.
    assert (He'eq : e' = Zdigits2 (A / B) + e - prec) by (subst e'; rewrite fexp_eq in *; lia).
    assert (Hdm : 0 < Zdigits2 (A / B)) by (fconst; lia).
    assert (Hmpos : 0 < A / B).
    { destruct (Z.eq_dec (A / B) 0) as [E|E]; [rewrite E in Hdm; cbn in Hdm; lia | lia]. }
    pose proof (div_ge_pow A B HA HB Hmpos) as Hlo.
    apply rne_ge; [nia|].
    replace (Zdigits2 (A / B) - 1) with (prec - 1 + (e' - e)) in Hlo by lia.
    rewrite Z.pow_add_r in Hlo by (fconst; lia). nia.
Qed.

(** The same key, as [RK] of the fraction in units of [2^emin]. *)
Lemma rounded_RK (A B e : Z) :
  0 <= A -> 0 < B -> e <= fexp prec emax (Zdigits2 (A / B) + e) ->
  let e' := fexp prec emax (Zdigits2 (A / B) + e) in
  Z.min inf_key (rne A (B * 2 ^ (e' - e)) * 2 ^ (e' - emin))
  = RK (A * 2 ^ Z.max 0 (e - emin)) (B * 2 ^ Z.max 0 (emin - e)).
Proof.
  intros HA HB Hpre e'.
  pose proof (Zdigits2_nonneg (A / B)) as Hd0.
  pose proof (Z.div_pos A B HA HB) as Hm0.
  assert (He' : emin <= e') by (subst e'; rewrite fexp_eq; lia).
  remember (Z.max 0 (e - emin)) as a eqn:Ea.
  remember (Z.max 0 (emin - e)) as b eqn:Eb.
  assert (Hpa : 0 < 2 ^ a) by (apply Z.pow_pos_nonneg; lia).
  assert (Hpb : 0 < 2 ^ b) by (apply Z.pow_pos_nonneg; lia).
  assert (Hg : gexp (A * 2 ^ a) (B * 2 ^ b) = e' - emin).
  { unfold gexp. subst e'. rewrite fexp_eq in *.
    set (dm := Zdigits2 (A / B)) in *.
    destruct (Z_le_gt_dec emin e) as [Hge | Hlt].
    - (* the unit is coarser than [2^emin] *)
      replace b with 0 by lia. change (2 ^ 0) with 1. rewrite Z.mul_1_r.
      destruct (Z.eq_dec (A / B) 0) as [E | E].
      + assert (dm = 0) by (subst dm; now rewrite E).
        assert (a = 0) by (fconst; lia). replace a with 0 by lia.
        change (2 ^ 0) with 1. rewrite Z.mul_1_r, E. cbn [Zdigits2]. fconst. lia.
      + assert (Hmpos : 0 < A / B) by lia.
        pose proof (div_ge_pow A B HA HB Hmpos) as Hlo. fold dm in Hlo.
        assert (Hhi : A < 2 ^ dm * B) by (apply div_lt_pow; lia).
        assert (Hdm : 0 < dm) by (apply Zdigits2_pos; lia).
        assert (Hda : Zdigits2 (A * 2 ^ a / B) = dm + a).
        { assert (Hq : 2 ^ (dm + a - 1) <= A * 2 ^ a / B < 2 ^ (dm + a)).
          { split.
            - apply Z.div_le_lower_bound; [lia|].
              replace (dm + a - 1) with (dm - 1 + a) by lia.
              rewrite Z.pow_add_r by lia. nia.
            - apply Z.div_lt_upper_bound; [lia|].
              rewrite Z.pow_add_r by lia. nia. }
          apply Zdigits2_unique; [exact Hq|].
          assert (0 < 2 ^ (dm + a - 1)) by (apply Z.pow_pos_nonneg; lia). lia. }
        rewrite Hda. lia.
    - (* the unit is finer than [2^emin] *)
      replace a with 0 by lia. change (2 ^ 0) with 1. rewrite Z.mul_1_r.
      rewrite <- Z.div_div by lia. fold dm.
      destruct (Z_le_gt_dec dm b) as [Hsmall | Hbig].
      + assert (Hz : A / B / 2 ^ b = 0).
        { apply Z.div_small. split; [lia|].
          apply Zdigits2_lt_pow; lia. }
        rewrite Hz. cbn [Zdigits2]. fconst. lia.
      + assert (Hmpos : 0 < A / B).
        { destruct (Z.eq_dec (A / B) 0) as [E|E]; [|lia].
          subst dm. rewrite E in Hbig. cbn [Zdigits2] in Hbig. lia. }
        destruct (Zdigits2_bounds _ Hmpos) as [Hlo Hhi]. fold dm in Hlo, Hhi.
        assert (Hq : 2 ^ (dm - b - 1) <= A / B / 2 ^ b < 2 ^ (dm - b)).
        { split.
          - apply Z.div_le_lower_bound; [lia|].
            rewrite <- Z.pow_add_r by lia.
            replace (b + (dm - b - 1)) with (dm - 1) by lia. exact Hlo.
          - apply Z.div_lt_upper_bound; [lia|].
            rewrite <- Z.pow_add_r by lia.
            replace (b + (dm - b)) with dm by lia. exact Hhi. }
        assert (Hdq : Zdigits2 (A / B / 2 ^ b) = dm - b).
        { apply Zdigits2_unique; [exact Hq|].
          assert (0 < 2 ^ (dm - b - 1)) by (apply Z.pow_pos_nonneg; lia). lia. }
        rewrite Hdq. lia. }
  unfold RK. rewrite Hg. f_equal.
  rewrite (Z.mul_comm (2 ^ (e' - emin))). f_equal.
  assert (Hpg : 0 < 2 ^ (e' - emin)) by (apply Z.pow_pos_nonneg; lia).
  assert (Hpn : 0 < 2 ^ (e' - e)) by (apply Z.pow_pos_nonneg; lia).
  assert (Hpow : 2 ^ a * 2 ^ (e' - e) = 2 ^ b * 2 ^ (e' - emin)).
  { rewrite <- !Z.pow_add_r by lia. f_equal. lia. }
  apply Z.le_antisymm; apply rne_mono; nia.
Qed.

End Bits.

(** ** Addition, multiplication and division round the exact result *)

Module Ops.
Import FloatOrder Rounding Bits.

(** The key of the Number 1. *)
Definition unit_key : Z := 2 ^ (- emin).

Lemma unit_pos : 0 < unit_key.
Proof. reflexivity. Qed.

Lemma iter_xO (m d : positive) : Zpos (Pos.iter xO m d) = Zpos m * 2 ^ Zpos d.
Proof.
  induction d as [|d IH] using Pos.peano_ind.
  - cbn [Pos.iter]. rewrite Pos2Z.inj_xO. change (2 ^ 1) with 2. lia.
  - rewrite Pos.iter_succ, Pos2Z.inj_xO, IH, Pos2Z.inj_succ, Z.pow_succ_r by lia.
    ring.
Qed.

Lemma shl_align_spec (m : positive) (e e' : Z) :
  let '(m', e'') := shl_align m e e' in
  e'' = Z.min e e' /\ Zpos m' = Zpos m * 2 ^ (e - e'').
Proof.
  unfold shl_align. destruct (e' - e) as [|d|d] eqn:E.
  - split; [lia|]. rewrite Z.sub_diag. change (2 ^ 0) with 1. lia.
  - split; [lia|]. rewrite Z.sub_diag. change (2 ^ 0) with 1. lia.
  - split; [lia|]. rewrite iter_xO. f_equal. f_equal. lia.
Qed.

Lemma pow2_pos (k : Z) : 0 <= k -> 0 < 2 ^ k.
Proof. intros. apply Z.pow_pos_nonneg; lia. Qed.

Lemma mul_pow2_pos (a k : Z) : 0 < a -> 0 <= k -> 0 < a * 2 ^ k.
Proof. intros. apply Z.mul_pos_pos; [assumption | now apply pow2_pos]. Qed.

Lemma mul_pow2_nonneg (a k : Z) : 0 <= a -> 0 <= k -> 0 <= a * 2 ^ k.
Proof. intros. apply Z.mul_nonneg_nonneg; [assumption | apply Z.pow_nonneg; lia]. Qed.

Lemma pow2_eq_2_3 (u v x y z : Z) :
  0 <= u -> 0 <= v -> 0 <= x -> 0 <= y -> 0 <= z -> u + v = x + y + z ->
  2 ^ u * 2 ^ v = 2 ^ x * 2 ^ y * 2 ^ z.
Proof.
  intros Hu Hv Hx Hy Hz E.
  rewrite <- !Z.pow_add_r by lia. now rewrite E.
Qed.

Lemma loc_of_1 (A : Z) : loc_of A 1 = loc_Exact.
Proof. unfold loc_of. now rewrite Z.mod_1_r. Qed.

Lemma new_location_loc (B r : Z) :
  0 < B -> 0 <= r < B ->
  new_location B r = if r =? 0 then loc_Exact else loc_Inexact (2 * r ?= B).
Proof.
  intros HB Hr. unfold new_location.
  destruct (Z.even B) eqn:Ev; unfold new_location_even, new_location_odd;
    (destruct (Z.eqb_spec r 0) as [-> | Hne]; [reflexivity|]);
    [reflexivity|].
  f_equal.
  assert (Hodd : Z.odd B = true) by (rewrite <- Z.negb_even, Ev; reflexivity).
  apply Z.odd_spec in Hodd. destruct Hodd as [k Hk].
  destruct (Z.compare_spec (2 * r + 1) B), (Z.compare_spec (2 * r) B);
    try reflexivity; lia.
Qed.

Lemma RK_0 (D : Z) : 0 < D -> RK 0 D = 0.
Proof.
  intros HD. unfold RK, gexp. rewrite Z.div_0_l by lia. cbn [Zdigits2].
  change (Z.max (0 - prec) 0) with 0. change (2 ^ 0) with 1.
  rewrite Z.mul_1_r, Z.mul_1_l. unfold rne.
  rewrite Z.mod_0_l, Z.div_0_l by lia.
  destruct (Z.compare_spec (2 * 0) D); try lia. reflexivity.
Qed.

Lemma RK_inf : RK inf_key 1 = inf_key.
Proof. vm_compute. reflexivity. Qed.

Lemma RK_ge_inf (N D : Z) : 0 < D -> inf_key * D <= N -> RK N D = inf_key.
Proof.
  intros HD H. assert (0 < inf_key) by reflexivity.
  apply Z.le_antisymm; [apply RK_le_inf|].
  rewrite <- RK_inf at 1. apply RK_mono; lia.
Qed.

(** [binary_round] on a mantissa and an exponent at or above [emin]. *)
Lemma binary_round_key (m : positive) (e : Z) :
  emin <= e ->
  let r := binary_round prec emax false m e in
  valid_binary r = true /\ key r = Some (RK (Zpos m * 2 ^ (e - emin)) 1).
Proof.
  intros He r. subst r. unfold binary_round.
  pose proof (shl_align_spec m e (fexp prec emax (Zpos (digits2_pos m) + e))) as Hs.
  destruct (shl_align m e _) as [mz ez]. destruct Hs as [Hez Hmz].
  assert (Hfe : emin <= fexp prec emax (Zpos (digits2_pos m) + e))
    by (rewrite fexp_eq; lia).
  assert (Hd : Zdigits2 (Zpos mz) + ez = Zpos (digits2_pos m) + e).
  { rewrite Hmz. rewrite Zdigits2_mul_pow2 by lia. cbn [Zdigits2]. lia. }
  assert (Hpre : ez <= fexp prec emax (Zdigits2 (Zpos mz / 1) + ez)).
  { rewrite Z.div_1_r, Hd. lia. }
  pose proof (binary_round_aux_spec (Zpos mz) 1 ez ltac:(lia) ltac:(lia) Hpre) as Hspec.
  pose proof (rounded_RK (Zpos mz) 1 ez ltac:(lia) ltac:(lia) Hpre) as HRK.
  cbv zeta in Hspec, HRK. rewrite Z.div_1_r in Hspec, HRK. rewrite loc_of_1 in Hspec.
  destruct Hspec as [Hv Hk]. split; [exact Hv|].
  rewrite Hk, HRK. f_equal.
  apply RK_ext;
    [apply mul_pow2_nonneg; lia | apply mul_pow2_pos; lia
    | apply mul_pow2_nonneg; lia | lia |].
  replace (Z.max 0 (emin - ez)) with 0 by lia.
  replace (Z.max 0 (ez - emin)) with (ez - emin) by lia.
  rewrite Hmz. change (2 ^ 0) with 1.
  replace (e - emin) with ((e - ez) + (ez - emin)) by lia.
  rewrite Z.pow_add_r by lia. ring.
Qed.

(** The key of a valid Number is not changed by rounding. *)
Lemma RK_key (x : spec_float) (k : Z) :
  valid_binary x = true -> key x = Some k -> 0 <= k -> RK k 1 = k.
Proof.
  intros Hv Hk H0. destruct x as [s | s | | s m e]; cbn [key] in Hk;
    try discriminate; injection Hk as <-.
  - now apply RK_0.
  - assert (0 < inf_key) by reflexivity.
    destruct s; cbn [cond_Zopp] in *; [lia | apply RK_inf].
  - cbn [valid_binary] in Hv. pose proof (bounded_key m e Hv) as Hb.
    destruct s; cbn [cond_Zopp] in *; [lia|].
    destruct (bounded_inv m e Hv) as (He & _).
    assert (Hpre : e <= fexp prec emax (Zdigits2 (Zpos m / 1) + e)).
    { rewrite Z.div_1_r. cbn [Zdigits2].
      unfold bounded, canonical_mantissa in Hv. apply andb_prop in Hv.
      destruct Hv as [Hc _]. apply Z.eqb_eq in Hc. lia. }
    pose proof (rounded_RK (Zpos m) 1 e ltac:(lia) ltac:(lia) Hpre) as HRK.
    cbv zeta in HRK. rewrite Z.div_1_r in HRK. cbn [Zdigits2] in HRK.
    unfold bounded, canonical_mantissa in Hv. apply andb_prop in Hv.
    destruct Hv as [Hc _]. apply Z.eqb_eq in Hc. rewrite Hc in HRK.
    rewrite Z.sub_diag in HRK. change (2 ^ 0) with 1 in HRK.
    rewrite Z.mul_1_r, rne_exact_1 in HRK.
    replace (Z.max 0 (emin - e)) with 0 in HRK by lia.
    replace (Z.max 0 (e - emin)) with (e - emin) in HRK by lia.
    change (2 ^ 0) with 1 in HRK. rewrite Z.mul_1_r in HRK. rewrite <- HRK. lia.
Qed.

Lemma Zdigits2_ge (z k : Z) : 0 < z -> 2 ^ (k - 1) <= z -> k <= Zdigits2 z.
Proof.
  intros Hz H. destruct (Z_le_gt_dec k (Zdigits2 z)) as [|Hgt]; [assumption|].
  exfalso. destruct (Zdigits2_bounds z Hz) as [_ Hhi].
  pose proof (Zdigits2_pos z Hz).
  assert (2 ^ Zdigits2 z <= 2 ^ (k - 1)) by (apply Z.pow_le_mono_r; lia). lia.
Qed.

(** *** Addition *)

Lemma SFadd_finite_key (mx : positive) (ex : Z) (my : positive) (ey : Z) :
  bounded prec emax mx ex = true -> bounded prec emax my ey = true ->
  key (SFadd prec emax (S754_finite false mx ex) (S754_finite false my ey))
  = Some (RK (Zpos mx * 2 ^ (ex - emin) + Zpos my * 2 ^ (ey - emin)) 1).
Proof.
  intros Hx Hy.
  destruct (bounded_inv _ _ Hx) as (Hex & _). destruct (bounded_inv _ _ Hy) as (Hey & _).
  cbn [SFadd cond_Zopp].
  pose proof (shl_align_spec mx ex (Z.min ex ey)) as Hsx.
  pose proof (shl_align_spec my ey (Z.min ex ey)) as Hsy.
  destruct (shl_align mx ex (Z.min ex ey)) as [ax e1].
  destruct (shl_align my ey (Z.min ex ey)) as [ay e2].
  destruct Hsx as [He1 Hax]. destruct Hsy as [He2 Hay]. cbn [fst].
  change (Zpos ax + Zpos ay) with (Zpos (ax + ay)). cbn [binary_normalize].
  destruct (binary_round_key (ax + ay) (Z.min ex ey) ltac:(lia)) as [_ ->].
  f_equal. f_equal.
  rewrite Pos2Z.inj_add, Hax, Hay.
  replace e1 with (Z.min ex ey) by lia. replace e2 with (Z.min ex ey) by lia.
  rewrite Z.mul_add_distr_r, <- !Z.mul_assoc, <- !Z.pow_add_r by lia.
  f_equal; f_equal; f_equal; lia.
Qed.

(** *** Multiplication *)

Lemma SFmul_finite_key (mx : positive) (ex : Z) (my : positive) (ey : Z) :
  bounded prec emax mx ex = true -> bounded prec emax my ey = true ->
  key (SFmul prec emax (S754_finite false mx ex) (S754_finite false my ey))
  = Some (RK (Zpos mx * 2 ^ (ex - emin) * (Zpos my * 2 ^ (ey - emin))) unit_key).
Proof.
  intros Hx Hy.
  destruct (bounded_inv _ _ Hx) as (Hex & Hdx & Hnx).
  destruct (bounded_inv _ _ Hy) as (Hey & Hdy & Hny).
  cbn [SFmul xorb].
  destruct (digits2_pos_bounds mx) as [Hlx _].
  destruct (digits2_pos_bounds my) as [Hly _].
  assert (Hd : Zpos (digits2_pos mx) + Zpos (digits2_pos my) - 1
               <= Zdigits2 (Zpos (mx * my))).
  { apply Zdigits2_ge; [lia|]. rewrite Pos2Z.inj_mul.
    replace (Zpos (digits2_pos mx) + Zpos (digits2_pos my) - 1 - 1)
      with ((Zpos (digits2_pos mx) - 1) + (Zpos (digits2_pos my) - 1)) by lia.
    rewrite Z.pow_add_r by lia.
    apply Z.mul_le_mono_nonneg; try assumption; apply Z.pow_nonneg; lia. }
  assert (Hpre : ex + ey <= fexp prec emax (Zdigits2 (Zpos (mx * my) / 1) + (ex + ey))).
  { rewrite Z.div_1_r, fexp_eq. fconst. lia. }
  pose proof (binary_round_aux_spec (Zpos (mx * my)) 1 (ex + ey)
                ltac:(lia) ltac:(lia) Hpre) as Hspec.
  pose proof (rounded_RK (Zpos (mx * my)) 1 (ex + ey) ltac:(lia) ltac:(lia) Hpre) as HRK.
  cbv zeta in Hspec, HRK. rewrite Z.div_1_r in Hspec, HRK. rewrite loc_of_1 in Hspec.
  destruct Hspec as [_ ->]. rewrite HRK. f_equal.
  set (a := Z.max 0 (ex + ey - emin)). set (b := Z.max 0 (emin - (ex + ey))).
  pose proof unit_pos as HU.
  apply RK_ext.
  { apply mul_pow2_nonneg; lia. }
  { apply mul_pow2_pos; lia. }
  { apply Z.mul_nonneg_nonneg; apply mul_pow2_nonneg; lia. }
  { exact HU. }
  rewrite Pos2Z.inj_mul. unfold unit_key.
  transitivity (Zpos mx * Zpos my * (2 ^ a * 2 ^ (- emin))); [ring|].
  transitivity (Zpos mx * Zpos my * (2 ^ (ex - emin) * 2 ^ (ey - emin) * 2 ^ b)); [|ring].
  f_equal. clear - Hex Hey. subst a b. apply pow2_eq_2_3; fconst; lia.
Qed.

(** *** Division, of any two positive mantissas and exponents *)

Lemma SFdiv_finite_key (m1 : positive) (e1 : Z) (m2 : positive) (e2 : Z) :
  let r := SFdiv prec emax (S754_finite false m1 e1) (S754_finite false m2 e2) in
  valid_binary r = true /\
  key r = Some (RK (Zpos m1 * 2 ^ Z.max 0 (e1 - e2 - emin))
                   (Zpos m2 * 2 ^ Z.max 0 (emin - (e1 - e2)))).
Proof.
  cbv zeta. cbn [SFdiv xorb]. unfold SFdiv_core_binary. cbn [Zdigits2].
  set (d1 := Zpos (digits2_pos m1)). set (d2 := Zpos (digits2_pos m2)).
  set (e' := Z.min (fexp prec emax (d1 + e1 - (d2 + e2))) (e1 - e2)).
  set (s := e1 - e2 - e').
  assert (Hs : 0 <= s) by (subst s e'; lia).
  assert (Hm' : match s with
                | Zpos _ => Z.shiftl (Zpos m1) s
                | Z0 => Zpos m1
                | Zneg _ => 0
                end = Zpos m1 * 2 ^ s).
  { destruct s as [|q|q] eqn:E; [change (2 ^ 0) with 1; lia | | lia].
    apply Z.shiftl_mul_pow2. lia. }
  rewrite Hm'.
  assert (Hps : 0 < 2 ^ s) by (apply Z.pow_pos_nonneg; lia).
  set (A := Zpos m1 * 2 ^ s) in *.
  assert (HA : 0 < A) by (subst A; apply mul_pow2_pos; lia).
  pose proof (Z.mod_pos_bound A (Zpos m2) ltac:(lia)) as Hr.
  unfold Z.modulo, Z.div in *.
  assert (Hqe : fst (Z.div_eucl A (Zpos m2)) = A / Zpos m2) by reflexivity.
  assert (Hre : snd (Z.div_eucl A (Zpos m2)) = A mod Zpos m2) by reflexivity.
  destruct (Z.div_eucl A (Zpos m2)) as [q r]. cbn [fst snd] in *.
  rewrite new_location_loc by lia.
  subst q r. fold (loc_of A (Zpos m2)).
  (* the exponent is at or below the exponent of the binade *)
  destruct (digits2_pos_bounds m1) as [Hl1 Hh1]. fold d1 in Hl1, Hh1.
  destruct (digits2_pos_bounds m2) as [Hl2 Hh2]. fold d2 in Hl2, Hh2.
  assert (Hpre : e' <= fexp prec emax (Zdigits2 (A / Zpos m2) + e')).
  { rewrite fexp_eq. destruct (Z_le_gt_dec e' emin) as [|Hgt]; [lia|].
    assert (He'le : e' <= d1 + e1 - (d2 + e2) - prec)
      by (subst e'; rewrite fexp_eq in *; lia).
    assert (Hq : prec <= Zdigits2 (A / Zpos m2)); [|lia].
    assert (Hsge : d2 - d1 + prec <= s) by (subst s; lia).
    assert (Hqlo : 2 ^ (prec - 1) <= A / Zpos m2).
    { apply Z.div_le_lower_bound; [lia|].
      apply Z.le_trans with (2 ^ d2 * 2 ^ (prec - 1)).
      - apply Z.mul_le_mono_nonneg_r; [apply Z.pow_nonneg|]; lia.
      - subst A. apply Z.le_trans with (2 ^ (d1 - 1) * 2 ^ s).
        + rewrite <- !Z.pow_add_r by (subst d1 d2; fconst; lia).
          apply Z.pow_le_mono_r; [lia|]. fconst. lia.
        + apply Z.mul_le_mono_nonneg_r; lia. }
    apply Zdigits2_ge; [|exact Hqlo].
    assert (0 < 2 ^ (prec - 1)) by reflexivity. lia. }
  pose proof (binary_round_aux_spec A (Zpos m2) e' ltac:(lia) ltac:(lia) Hpre) as Hspec.
  pose proof (rounded_RK A (Zpos m2) e' ltac:(lia) ltac:(lia) Hpre) as HRK.
  cbv zeta in Hspec, HRK. destruct Hspec as [Hv Hk].
  split; [exact Hv|]. rewrite Hk, HRK. f_equal.
  set (a := Z.max 0 (e' - emin)). set (b := Z.max 0 (emin - e')).
  set (a' := Z.max 0 (e1 - e2 - emin)). set (b' := Z.max 0 (emin - (e1 - e2))).
  apply RK_ext.
  { apply mul_pow2_nonneg; lia. }
  { apply mul_pow2_pos; lia. }
  { apply mul_pow2_nonneg; lia. }
  { apply mul_pow2_pos; lia. }
  subst A.
  transitivity (Zpos m1 * Zpos m2 * (2 ^ s * 2 ^ a * 2 ^ b')); [ring|].
  transitivity (Zpos m1 * Zpos m2 * (2 ^ a' * 2 ^ b)); [|ring].
  f_equal. symmetry. clear - Hs. subst a b a' b'. unfold s in *.
  apply pow2_eq_2_3; lia.
Qed.

End Ops.

(** ** The arithmetic of non-negative Numbers, on keys *)

Module FloatArith.
Import FloatOrder Rounding Bits Ops.

(** The shapes of a Number with a non-negative key. *)
Inductive nonneg_shape (x : float) (k : Z) : Prop :=
  | shape_zero (s : bool) : Prim2SF x = S754_zero s -> k = 0 -> nonneg_shape x k
  | shape_finite (m : positive) (e : Z) :
      Prim2SF x = S754_finite false m e -> bounded prec emax m e = true ->
      k = Zpos m * 2 ^ (e - emin) -> 0 < k < inf_key -> nonneg_shape x k
  | shape_infinity : Prim2SF x = S754_infinity false -> k = inf_key -> nonneg_shape x k.

Lemma fkey_shape (x : float) (k : Z) :
  fkey x = Some k -> 0 <= k -> nonneg_shape x k.
Proof.
  unfold fkey. pose proof (Prim2SF_valid x) as Hv.
  assert (Hinf : 0 < inf_key) by reflexivity.
  destruct (Prim2SF x) as [s | s | | s m e] eqn:E; cbn [key]; intros Hk H0;
    try discriminate; injection Hk as <-.
  - now apply (shape_zero x 0 s).
  - destruct s; cbn [cond_Zopp] in *; [lia|]. now apply shape_infinity.
  - cbn [valid_binary] in Hv. pose proof (bounded_key m e Hv).
    destruct s; cbn [cond_Zopp] in *; [lia|].
    now apply (shape_finite x _ m e).
Qed.

Lemma fkey_RK (x : float) (k : Z) : fkey x = Some k -> 0 <= k -> RK k 1 = k.
Proof. intros Hk H0. exact (RK_key (Prim2SF x) k (Prim2SF_valid x) Hk H0). Qed.

Lemma fkey_le_inf (x : float) (k : Z) : fkey x = Some k -> 0 <= k -> k <= inf_key.
Proof.
  intros Hk H0. assert (0 < inf_key) by reflexivity.
  destruct (fkey_shape x k Hk H0); lia.
Qed.

(** Addition of two non-negative Numbers. *)
Lemma fadd_key (x c : float) (kx kc : Z) :
  fkey x = Some kx -> fkey c = Some kc -> 0 <= kx -> 0 <= kc ->
  fkey (x + c) = Some (RK (kx + kc) 1).
Proof.
  intros Hx Hc H0x H0c.
  pose proof (fkey_RK x kx Hx H0x) as Rx. pose proof (fkey_RK c kc Hc H0c) as Rc.
  assert (Hinf : 0 < inf_key) by reflexivity.
  unfold fkey. rewrite add_spec. unfold SF64add.
  destruct (fkey_shape x kx Hx H0x) as [sx Ex -> | mx ex Ex Bx -> Hkx | Ex ->];
    destruct (fkey_shape c kc Hc H0c) as [sc Ec -> | mc ec Ec Bc -> Hkc | Ec ->];
    rewrite Ex, Ec.
  - destruct sx, sc; cbn [SFadd key]; now rewrite RK_0.
  - cbn [SFadd key cond_Zopp]. now rewrite Z.add_0_l, Rc.
  - cbn [SFadd key cond_Zopp]. now rewrite Z.add_0_l, RK_inf.
  - cbn [SFadd key cond_Zopp]. now rewrite Z.add_0_r, Rx.
  - now apply SFadd_finite_key.
  - cbn [SFadd key cond_Zopp]. rewrite RK_ge_inf; [reflexivity | lia | lia].
  - cbn [SFadd key cond_Zopp]. now rewrite Z.add_0_r, RK_inf.
  - cbn [SFadd key cond_Zopp]. rewrite RK_ge_inf; [reflexivity | lia | lia].
  - cbn [SFadd key cond_Zopp]. rewrite RK_ge_inf; [reflexivity | lia | lia].
Qed.

(** Multiplication of two finite non-negative Numbers. *)
Lemma fmul_key (x y : float) (kx ky : Z) :
  fkey x = Some kx -> fkey y = Some ky ->
  0 <= kx < inf_key -> 0 <= ky < inf_key ->
  fkey (x * y) = Some (RK (kx * ky) unit_key).
Proof.
  intros Hx Hy [H0x H1x] [H0y H1y].
  pose proof unit_pos as HU.
  unfold fkey. rewrite mul_spec. unfold SF64mul.
  destruct (fkey_shape x kx Hx H0x) as [sx Ex -> | mx ex Ex Bx -> Hkx | Ex ->];
    destruct (fkey_shape y ky Hy H0y) as [sy Ey -> | my ey Ey By -> Hky | Ey ->];
    try lia; rewrite Ex, Ey.
  - cbn [SFmul key]. now rewrite RK_0.
  - cbn [SFmul key]. now rewrite RK_0.
  - cbn [SFmul key]. now rewrite Z.mul_0_r, RK_0.
  - now apply SFmul_finite_key.
Qed.

(** Division of a finite non-negative Number by a finite positive one. *)
Lemma fdiv_key (a d : float) (ka kd : Z) :
  fkey a = Some ka -> fkey d = Some kd ->
  0 <= ka < inf_key -> 0 < kd < inf_key ->
  fkey (a / d) = Some (RK (ka * unit_key) kd).
Proof.
  intros Ha Hd [H0a H1a] [H0d H1d].
  pose proof unit_pos as HU.
  unfold fkey. rewrite div_spec. unfold SF64div.
  destruct (fkey_shape a ka Ha H0a) as [sa Ea -> | ma ea Ea Ba -> Hka | Ea ->];
    destruct (fkey_shape d kd Hd ltac:(lia)) as [sd Ed -> | md ed Ed Bd -> Hkd | Ed ->];
    try lia; rewrite Ea, Ed.
  - cbn [SFdiv key]. now rewrite RK_0.
  - destruct (SFdiv_finite_key ma ea md ed) as [_ ->]. f_equal.
    destruct (bounded_inv _ _ Ba) as (Hea & _). destruct (bounded_inv _ _ Bd) as (Hed & _).
    set (a' := Z.max 0 (ea - ed - emin)). set (b' := Z.max 0 (emin - (ea - ed))).
    assert (Hpa : 0 < 2 ^ a') by (apply Z.pow_pos_nonneg; lia).
    assert (Hpb : 0 < 2 ^ b') by (apply Z.pow_pos_nonneg; lia).
    assert (Hp1 : 0 < 2 ^ (ea - emin)) by (apply Z.pow_pos_nonneg; lia).
    assert (Hp2 : 0 < 2 ^ (ed - emin)) by (apply Z.pow_pos_nonneg; lia).
    apply RK_ext; try nia.
    unfold unit_key.
    transitivity (Zpos ma * Zpos md * (2 ^ a' * 2 ^ (ed - emin))); [ring|].
    transitivity (Zpos ma * Zpos md * (2 ^ (ea - emin) * 2 ^ (- emin) * 2 ^ b')); [|ring].
    f_equal. rewrite <- !Z.pow_add_r by (subst a' b'; fconst; lia).
    f_equal. subst a' b'. fconst. lia.
Qed.

(** Adding a non-negative Number does not make a Number smaller. *)
Lemma add_ge (x c : float) (kx kc : Z) :
  fkey x = Some kx -> fkey c = Some kc -> 0 <= kx -> 0 <= kc ->
  exists ks, fkey (x + c) = Some ks /\ kx <= ks /\ kc <= ks.
Proof.
  intros Hx Hc H0x H0c. exists (RK (kx + kc) 1).
  split; [now apply fadd_key|].
  rewrite <- (fkey_RK x kx Hx H0x) at 1. rewrite <- (fkey_RK c kc Hc H0c) at 2.
  split; apply RK_mono; lia.
Qed.

(** Multiplying by a finite Number that is at least 1 does not make a
    non-negative Number smaller. *)
Lemma mul_ge (x y : float) (kx ky : Z) :
  fkey x = Some kx -> fkey y = Some ky ->
  0 <= kx -> unit_key <= ky < inf_key ->
  exists kp, fkey (x * y) = Some kp /\ kx <= kp.
Proof.
  intros Hx Hy H0x [H1y H2y]. pose proof unit_pos as HU.
  destruct (Z.eq_dec kx inf_key) as [-> | Hne].
  - exists inf_key. split; [|lia].
    unfold fkey. rewrite mul_spec. unfold SF64mul.
    destruct (fkey_shape x _ Hx H0x) as [sx Ex E | mx ex Ex Bx E Hkx | Ex _];
      [discriminate E | lia |].
    destruct (fkey_shape y ky Hy ltac:(lia)) as [sy Ey -> | my ey Ey By -> Hky | Ey ->];
      try lia.
    rewrite Ex, Ey. reflexivity.
  - pose proof (fkey_le_inf x kx Hx H0x).
    exists (RK (kx * ky) unit_key). split; [apply fmul_key; auto; lia|].
    rewrite <- (fkey_RK x kx Hx H0x) at 1. apply RK_mono; nia.
Qed.

End FloatArith.

(** ** Rounding to two decimals is monotone *)

Module Round2.
Import FloatOrder Rounding Bits Ops FloatArith.

(** The key of [1e21], from which [toFixed] falls back on [toString]. *)
Definition key_1e21 : Z := 10 ^ 21 * unit_key.

Lemma fkey_1e21 : fkey 1e21 = Some key_1e21.
Proof. vm_compute. reflexivity. Qed.

Lemma fkey_infinity : fkey infinity = Some inf_key.
Proof. reflexivity. Qed.

(** The number of hundredths nearest to a key. *)
Definition hund (k : Z) : Z := (200 * k + unit_key) / (2 * unit_key).

Lemma hund_mono (k1 k2 : Z) : k1 <= k2 -> hund k1 <= hund k2.
Proof.
  intros H. unfold hund. pose proof unit_pos.
  apply Z.div_le_mono; lia.
Qed.

Lemma fkey_abs (x : float) (k : Z) :
  fkey x = Some k -> 0 <= k -> fkey (abs x) = Some k.
Proof.
  intros Hk H0. unfold fkey. rewrite abs_spec.
  destruct (fkey_shape x k Hk H0) as [s E -> | m e E B -> Hr | E ->];
    rewrite E; reflexivity.
Qed.

Lemma hundredths_key (x : float) (k : Z) :
  fkey x = Some k -> 0 <= k < inf_key -> JS.hundredths x = hund k.
Proof.
  intros Hk [H0 H1]. unfold JS.hundredths, hund. pose proof unit_pos as HU.
  destruct (fkey_shape x k Hk H0) as [s E -> | m e E B -> Hr | E ->];
    try lia; rewrite E.
  - symmetry. apply Z.div_small. lia.
  - destruct (bounded_inv _ _ B) as (He & _).
    destruct (Z.leb_spec 0 e) as [Hpos | Hneg].
    + replace (e - emin) with (e + (- emin)) by lia.
      rewrite Z.pow_add_r by (fconst; lia). fold unit_key.
      replace (200 * (Zpos m * (2 ^ e * unit_key)) + unit_key)
        with (unit_key + (Zpos m * 2 ^ e * 100) * (2 * unit_key)) by ring.
      rewrite Z.div_add by lia. rewrite Z.div_small by lia. lia.
    + assert (Hp : 0 < 2 ^ (e - emin)) by (apply Z.pow_pos_nonneg; lia).
      assert (E1 : unit_key = 2 ^ (- e) * 2 ^ (e - emin)).
      { unfold unit_key. rewrite <- Z.pow_add_r by lia. f_equal. lia. }
      assert (E2 : 2 * unit_key = 2 ^ (1 - e) * 2 ^ (e - emin)).
      { unfold unit_key. change 2 with (2 ^ 1) at 1.
        rewrite <- !Z.pow_add_r by lia. f_equal. lia. }
      rewrite E2, E1.
      replace (200 * (Zpos m * 2 ^ (e - emin)) + 2 ^ (- e) * 2 ^ (e - emin))
        with ((Zpos m * 200 + 2 ^ (- e)) * 2 ^ (e - emin)) by ring.
      rewrite Z.div_mul_cancel_r; [reflexivity| |lia].
      assert (0 < 2 ^ (1 - e)) by (apply Z.pow_pos_nonneg; lia). lia.
Qed.

Lemma hund_nonneg (k : Z) : 0 <= k -> 0 <= hund k.
Proof.
  intros H. unfold hund. pose proof unit_pos. apply Z.div_pos; lia.
Qed.

(** The Number that [parseFloat] reads back from [n] hundredths. *)
Lemma parseFloat_key (n : Z) :
  0 <= n ->
  fkey (JS.parseFloat (JS.FixedDecimal false n)) = Some (RK (n * unit_key) 100).
Proof.
  intros Hn. pose proof unit_pos as HU. destruct n as [|p|p]; [| |lia].
  - cbn [JS.parseFloat]. now rewrite Z.mul_0_l, RK_0.
  - cbn [JS.parseFloat]. unfold fkey.
    destruct (SFdiv_finite_key p 0 100 0) as [Hv Hk].
    rewrite Prim2SF_SF2Prim by exact Hv. rewrite Hk. reflexivity.
Qed.

(** The key of [round2 x] for [x >= 0]. *)
Definition round2_key (k : Z) : Z :=
  if key_1e21 <=? k then k else RK (hund k * unit_key) 100.

Lemma round2_fkey (x : float) (k : Z) :
  fkey x = Some k -> 0 <= k -> fkey (round2 x) = Some (round2_key k).
Proof.
  intros Hk H0. unfold round2, JS.toFixed2, round2_key.
  pose proof (fkey_abs x k Hk H0) as Ha.
  pose proof (fkey_le_inf x k Hk H0) as Hle.
  assert (H21 : key_1e21 < inf_key) by reflexivity.
  rewrite is_nan_fkey, Hk. unfold is_infinity.
  rewrite eqb_fkey, leb_fkey, ltb_fkey, Ha, fkey_infinity, fkey_1e21, Hk.
  change (fkey 0) with (Some 0). cbn [orb].
  destruct (Z.eqb_spec k inf_key) as [-> | Hne].
  - cbn [JS.parseFloat]. rewrite Hk.
    replace (key_1e21 <=? inf_key) with true by reflexivity. reflexivity.
  - destruct (Z.leb_spec key_1e21 k) as [Hbig | Hsmall].
    + cbn [JS.parseFloat]. exact Hk.
    + replace (k <? 0) with false by (symmetry; apply Z.ltb_ge; lia).
      rewrite (hundredths_key (abs x) k Ha) by lia.
      apply parseFloat_key. now apply hund_nonneg.
Qed.

Lemma round2_key_mono (k1 k2 : Z) :
  0 <= k1 <= k2 -> round2_key k1 <= round2_key k2.
Proof.
  intros [H0 H12]. unfold round2_key. pose proof unit_pos as HU.
  destruct (Z.leb_spec key_1e21 k1) as [B1 | S1],
           (Z.leb_spec key_1e21 k2) as [B2 | S2]; try lia.
  - apply Z.le_trans with key_1e21; [|assumption].
    rewrite <- (fkey_RK 1e21 key_1e21 fkey_1e21 ltac:(unfold key_1e21; lia)).
    apply RK_mono; try lia.
    + pose proof (hund_nonneg k1 H0). nia.
    + assert (hund k1 < 100 * 10 ^ 21 + 1).
      { unfold hund. apply Z.div_lt_upper_bound; [lia|].
        unfold key_1e21 in S1. lia. }
      unfold key_1e21. nia.
  - apply RK_mono; try lia.
    + pose proof (hund_nonneg k1 H0). nia.
    + pose proof (hund_mono k1 k2 H12). nia.
Qed.

Lemma round2_key_nonneg (k : Z) : 0 <= k -> 0 <= round2_key k.
Proof.
  intros H. unfold round2_key. pose proof unit_pos.
  destruct (key_1e21 <=? k); [assumption|].
  apply RK_nonneg; [|lia]. pose proof (hund_nonneg k H). nia.
Qed.

End Round2.

(** ** The balance does not decrease *)

Module Growth.
Import FloatOrder Rounding Ops FloatArith Round2.

Lemma nonneg_real_key (x : float) :
  nonneg_real x = true -> exists k, fkey x = Some k /\ 0 <= k < inf_key.
Proof.
  unfold nonneg_real. rewrite leb_fkey, ltb_fkey, fkey_infinity.
  change (fkey 0) with (Some 0).
  destruct (fkey x) as [k|]; [|discriminate].
  intros H. apply andb_prop in H. destruct H as [H1 H2].
  apply Z.leb_le in H1. apply Z.ltb_lt in H2. eauto.
Qed.

Lemma key_of_100 : fkey 100 = Some (100 * unit_key).
Proof. vm_compute. reflexivity. Qed.

Lemma key_of_12 : fkey 12 = Some (12 * unit_key).
Proof. vm_compute. reflexivity. Qed.

Lemma key_of_1 : fkey 1 = Some unit_key.
Proof. vm_compute. reflexivity. Qed.

Lemma key_of_2 : fkey 2 = Some (2 * unit_key).
Proof. vm_compute. reflexivity. Qed.

Lemma unit_lt_inf : 100 * unit_key < inf_key.
Proof. reflexivity. Qed.

(** The monthly growth factor of a rate of [0 .. 100] percent is a finite
    Number between 1 and 2. *)
Lemma factor_key (rate : float) :
  (0 <=? rate)%float && (rate <=? 100)%float = true ->
  exists ky, fkey (1 + rate / 100 / 12) = Some ky /\ unit_key <= ky < inf_key.
Proof.
  rewrite !leb_fkey, key_of_100. change (fkey 0) with (Some 0).
  destruct (fkey rate) as [kr|] eqn:Hr; [|discriminate].
  intros H. apply andb_prop in H. destruct H as [H0 H1].
  apply Z.leb_le in H0. apply Z.leb_le in H1.
  pose proof unit_pos as HU. pose proof unit_lt_inf as HI.
  pose proof (fkey_RK 1 unit_key key_of_1 ltac:(lia)) as R1.
  pose proof (fkey_RK 2 (2 * unit_key) key_of_2 ltac:(lia)) as R2.
  (* rate / 100 <= 1 *)
  pose proof (fdiv_key rate 100 kr (100 * unit_key) Hr key_of_100 ltac:(lia) ltac:(lia)) as Hq1.
  set (k1 := RK (kr * unit_key) (100 * unit_key)) in *.
  assert (Hk1 : 0 <= k1 <= unit_key).
  { split; [apply RK_nonneg; nia|]. rewrite <- R1. apply RK_mono; nia. }
  (* rate / 100 / 12 <= 1 *)
  pose proof (fdiv_key _ 12 k1 (12 * unit_key) Hq1 key_of_12 ltac:(lia) ltac:(lia)) as Hq2.
  set (k2 := RK (k1 * unit_key) (12 * unit_key)) in *.
  assert (Hk2 : 0 <= k2 <= unit_key).
  { split; [apply RK_nonneg; nia|]. rewrite <- R1. apply RK_mono; nia. }
  (* 1 <= 1 + rate / 100 / 12 <= 2 *)
  exists (RK (unit_key + k2) 1).
  split; [apply (fadd_key 1 _ unit_key k2 key_of_1 Hq2); lia|].
  split.
  - rewrite <- R1 at 1. apply RK_mono; lia.
  - apply Z.le_lt_trans with (2 * unit_key); [|lia].
    rewrite <- R2. apply RK_mono; lia.
Qed.

Section Balance.
Variables (i : inputs) (n : Z).
Hypothesis Hvalid : validated i n.

Lemma balance_step_key (m : nat) (k : Z) :
  fkey (balance i m) = Some k -> 0 <= k ->
  exists k', fkey (balance i (S m)) = Some k' /\ k <= k'.
Proof.
  intros Hk H0. destruct Hvalid as (_ & Hc & Hrate & _).
  destruct (nonneg_real_key _ Hc) as (kc & Hkc & [H0c _]).
  destruct (factor_key _ Hrate) as (ky & Hky & Hy).
  destruct (add_ge _ _ k kc Hk Hkc H0 H0c) as (ks & Hks & Hle & _).
  destruct (mul_ge _ _ ks ky Hks Hky ltac:(lia) Hy) as (kp & Hkp & Hle').
  exists kp. split; [exact Hkp | lia].
Qed.

Lemma balance_key (m : nat) :
  exists k, fkey (balance i m) = Some k /\ 0 <= k.
Proof.
  induction m as [|m (k & Hk & H0)].
  - destruct Hvalid as (HsI & _).
    destruct (nonneg_real_key _ HsI) as (k & Hk & [H0 _]). eauto.
  - destruct (balance_step_key m k Hk H0) as (k' & Hk' & Hle).
    exists k'. split; [exact Hk' | lia].
Qed.

Lemma balance_mono (a b : nat) (ka kb : Z) :
  (a <= b)%nat ->
  fkey (balance i a) = Some ka -> fkey (balance i b) = Some kb -> ka <= kb.
Proof.
  intros Hab. revert kb. induction Hab as [|b Hab IH]; intros kb Ha Hb.
  - rewrite Ha in Hb. injection Hb as <-. lia.
  - destruct (balance_key b) as (k & Hk & H0).
    destruct (balance_step_key b k Hk H0) as (k' & Hk' & Hle).
    rewrite Hk' in Hb. injection Hb as <-.
    specialize (IH k Ha Hk). lia.
Qed.

(** The rounded balances do not decrease either. *)
Lemma rounded_balance_mono (a b : nat) :
  (a <= b)%nat ->
  (round2 (balance i a) <=? round2 (balance i b))%float = true.
Proof.
  intros Hab.
  destruct (balance_key a) as (ka & Hka & H0a).
  destruct (balance_key b) as (kb & Hkb & H0b).
  pose proof (balance_mono a b ka kb Hab Hka Hkb) as Hle.
  rewrite leb_fkey, (round2_fkey _ ka Hka H0a), (round2_fkey _ kb Hkb H0b).
  apply Z.leb_le. apply round2_key_mono. lia.
Qed.

End Balance.

End Growth.

(** ** The series *)

(** The parameters that show the first point apart: four thousandths of
    initial capital, no contribution, 3 percent, one year. *)
Definition sub_cent_capital : inputs := Inputs 0.004 0 3 1 "moins-2000".

(** The first point can lie above the second: for [sub_cent_capital] it
    carries the capital as entered, 0.004, and the second the rounded
    balance of the first month, 0. *)
Lemma series_nondecreasing_counterexample :
  validated sub_cent_capital 1 /\
  (0 <? tauxAnnuel sub_cent_capital)%float = true /\
  exists r console p0 p1,
    calculateInvestment 13 sub_cent_capital = Some (r, console) /\
    graphData r !! 0%nat = Some p0 /\ graphData r !! 1%nat = Some p1 /\
    total p0 = 0.004%float /\ total p1 = 0%float /\
    (total p0 <=? total p1)%float = false.
Proof.
  split; [unfold validated; repeat split; try reflexivity; lia|].
  split; [reflexivity|].
  eexists _, _, _, _. split; [vm_compute; reflexivity|].
  repeat split.
Qed.

(** X1: on validated parameters the stored totals do not decrease from the
    point of the first month on, in the arithmetic of Numbers (every
    operation of the loop and the rounding to two decimals included); they
    do not decrease from the first point on when the initial capital is a
    Number that rounding to two decimals leaves as it is. *)
Theorem series_nondecreasing (i : inputs) (n : Z) (fuel : nat) :
  validated i n -> (months n < fuel)%nat ->
  exists r console,
    calculateInvestment fuel i = Some (r, console) /\
    forall a b pa pb,
      (a <= b)%nat ->
      graphData r !! a = Some pa -> graphData r !! b = Some pb ->
      (1 <= a)%nat \/ round2 (sommeInitiale i) = sommeInitiale i ->
      (total pa <=? total pb)%float = true.
Proof.
  intros Hvalid Hfuel. pose proof Hvalid as (_ & _ & _ & Hn & Hy).
  eexists _, _. split; [apply (calculateInvestment_run i n fuel Hn Hy Hfuel)|].
  intros a b pa pb Hab Ha Hb Hfirst.
  assert (Hb' : (b <= months n)%nat).
  { apply lookup_lt_Some in Hb. rewrite closed_form_length in Hb. lia. }
  assert (Hpoint : forall m p, (m <= months n)%nat ->
            graphData (closed_form i n) !! m = Some p ->
            (1 <= m)%nat \/ round2 (sommeInitiale i) = sommeInitiale i ->
            total p = round2 (balance i m)).
  { intros m p Hm Hp Hf. destruct m as [|m].
    - destruct Hf as [Hf | Hf]; [lia|].
      cbn in Hp. injection Hp as <-. cbn [total balance]. now rewrite Hf.
    - rewrite closed_form_lookup in Hp by lia. now injection Hp as <-. }
  rewrite (Hpoint a pa ltac:(lia) Ha Hfirst).
  rewrite (Hpoint b pb Hb' Hb ltac:(destruct Hfirst; [left; lia | now right])).
  now apply (Growth.rounded_balance_mono i n Hvalid).
Qed.

Lemma series_nondecreasing_witness :
  exists r console,
    calculateInvestment 37 default_inputs = Some (r, console) /\
    forall a b pa pb,
      (a <= b)%nat ->
      graphData r !! a = Some pa -> graphData r !! b = Some pb ->
      (1 <= a)%nat \/ round2 (sommeInitiale default_inputs) = sommeInitiale default_inputs ->
      (total pa <=? total pb)%float = true.
Proof.
  apply (series_nondecreasing default_inputs 3 37).
  - exact default_inputs_validated.
  - vm_compute. lia.
Defined.

(** ** More on Numbers: NaN, and the Numbers of the integers *)

Module MoreFloat.
Import FloatOrder Rounding Bits Ops FloatArith.

Lemma is_nan_eq (v : float) : is_nan v = true -> v = nan.
Proof.
  rewrite is_nan_fkey. unfold fkey. intros H.
  apply Prim2SF_inj. change (Prim2SF nan) with S754_nan.
  destruct (Prim2SF v); cbn [key] in H; try discriminate. reflexivity.
Qed.

Lemma mul_nan_r (x : float) : (x * nan)%float = nan.
Proof.
  apply Prim2SF_inj. rewrite mul_spec. change (Prim2SF nan) with S754_nan.
  now destruct (Prim2SF x).
Qed.

Lemma mul_nan_l (x : float) : (nan * x)%float = nan.
Proof.
  apply Prim2SF_inj. rewrite mul_spec. change (Prim2SF nan) with S754_nan.
  reflexivity.
Qed.

Lemma add_nan_r (x : float) : (x + nan)%float = nan.
Proof.
  apply Prim2SF_inj. rewrite add_spec. change (Prim2SF nan) with S754_nan.
  now destruct (Prim2SF x).
Qed.

Lemma sub_nan_r (x : float) : (x - nan)%float = nan.
Proof.
  apply Prim2SF_inj. rewrite sub_spec. change (Prim2SF nan) with S754_nan.
  now destruct (Prim2SF x).
Qed.

Lemma round2_nan : round2 nan = nan.
Proof. reflexivity. Qed.

(** A comparison with NaN is false. *)
Lemma leb_nan_r (x : float) : (x <=? nan)%float = false.
Proof. rewrite leb_fkey, fkey_nan. now destruct (fkey x). Qed.

(** *** The sign of a rounded Number *)

Lemma binary_round_aux_opp (m e : Z) (l : location) :
  binary_round_aux prec emax true m e l
  = SFopp (binary_round_aux prec emax false m e l).
Proof.
  unfold binary_round_aux.
  destruct (shr_fexp prec emax m e l) as [mrs1 e1].
  destruct (shr_fexp prec emax _ e1 loc_Exact) as [mrs2 e2].
  destruct (shr_m mrs2); try reflexivity.
  now destruct (e2 <=? emax - prec).
Qed.

Lemma binary_round_opp (m : positive) (e : Z) :
  binary_round prec emax true m e = SFopp (binary_round prec emax false m e).
Proof.
  unfold binary_round. destruct (shl_align m e _) as [mz ez].
  apply binary_round_aux_opp.
Qed.

Lemma valid_opp (x : spec_float) : valid_binary (SFopp x) = valid_binary x.
Proof. now destruct x. Qed.

Lemma key_opp (x : spec_float) (k : Z) :
  key x = Some k -> key (SFopp x) = Some (- k).
Proof.
  destruct x as [s | s | | s m e]; cbn [key SFopp]; intros H;
    try discriminate; injection H as <-; try reflexivity;
    destruct s; cbn [negb cond_Zopp]; f_equal; lia.
Qed.

(** *** The Numbers of the integers *)

(** An integer of at most 53 bits is a Number. *)
Lemma RK_int (y : Z) : 0 <= y < 2 ^ prec -> RK (y * unit_key) 1 = y * unit_key.
Proof.
  intros [H0 H1]. pose proof unit_pos as HU.
  destruct (Z.eq_dec y 0) as [-> | Hne]; [now rewrite Z.mul_0_l, RK_0|].
  assert (Hy : 0 < y) by lia.
  unfold RK, gexp. rewrite Z.div_1_r. unfold unit_key.
  rewrite Zdigits2_mul_pow2 by (fconst; lia).
  pose proof (Zdigits2_pos y Hy) as Hd0.
  assert (Hd : Zdigits2 y <= prec).
  { destruct (Z_le_gt_dec (Zdigits2 y) prec) as [|Hgt]; [assumption|]. exfalso.
    destruct (Zdigits2_bounds y Hy) as [Hlo _].
    assert (2 ^ prec <= 2 ^ (Zdigits2 y - 1)) by (apply Z.pow_le_mono_r; fconst; lia).
    lia. }
  set (g := Z.max (Zdigits2 y + - emin - prec) 0).
  assert (Hg : 0 <= g <= - emin) by (subst g; fconst; lia).
  assert (Hsplit : 2 ^ (- emin) = 2 ^ (- emin - g) * 2 ^ g).
  { rewrite <- Z.pow_add_r by lia. f_equal. lia. }
  rewrite Z.mul_1_l.
  assert (Hr : rne (y * 2 ^ (- emin)) (2 ^ g) = y * 2 ^ (- emin - g)).
  { rewrite Hsplit, Z.mul_assoc. apply rne_exact. apply pow2_pos. lia. }
  rewrite Hr.
  replace (2 ^ g * (y * 2 ^ (- emin - g))) with (y * 2 ^ (- emin))
    by (rewrite Hsplit; ring).
  apply Z.min_r.
  assert (Hlt : y * 2 ^ (- emin) < 2 ^ prec * 2 ^ (- emin)).
  { apply Z.mul_lt_mono_pos_r; [apply pow2_pos; fconst; lia | assumption]. }
  assert (2 ^ prec * 2 ^ (- emin) <= inf_key); [|lia].
  vm_compute. discriminate.
Qed.

(** The key of the Number of an integer. *)
Lemma fkey_Z2F (y : Z) :
  fkey (JS.Z2F y) = Some (Z.sgn y * RK (Z.abs y * unit_key) 1).
Proof.
  unfold JS.Z2F, fkey. destruct y as [|p|p]; cbn [binary_normalize].
  - reflexivity.
  - destruct (binary_round_key p 0 ltac:(fconst; lia)) as [Hv Hk].
    rewrite Prim2SF_SF2Prim by exact Hv. rewrite Hk.
    cbn [Z.sgn Z.abs]. rewrite Z.mul_1_l. reflexivity.
  - destruct (binary_round_key p 0 ltac:(fconst; lia)) as [Hv Hk].
    rewrite binary_round_opp.
    rewrite Prim2SF_SF2Prim by (rewrite valid_opp; exact Hv).
    rewrite (key_opp _ _ Hk). cbn [Z.sgn Z.abs]. now f_equal.
Qed.

Lemma fkey_Z2F_small (y : Z) :
  0 <= y < 2 ^ prec -> fkey (JS.Z2F y) = Some (y * unit_key).
Proof.
  intros H. rewrite fkey_Z2F. rewrite Z.abs_eq by lia. rewrite RK_int by assumption.
  f_equal. destruct (Z.eq_dec y 0) as [-> | Hne]; [reflexivity|].
  rewrite Z.sgn_pos by lia. lia.
Qed.

(** The Number of a larger integer is a larger Number. *)
Lemma fkey_Z2F_ge (y b : Z) (k : Z) :
  0 <= b < 2 ^ prec -> b <= y -> fkey (JS.Z2F y) = Some k -> b * unit_key <= k.
Proof.
  intros Hb Hby Hk. pose proof unit_pos as HU.
  rewrite fkey_Z2F in Hk. injection Hk as <-.
  destruct (Z.eq_dec y 0) as [-> | Hne].
  - assert (b = 0) by lia. subst b. cbn. lia.
  - rewrite Z.sgn_pos, Z.mul_1_l, Z.abs_eq by lia.
    rewrite <- (RK_int b Hb). apply RK_mono; nia.
Qed.

Lemma fkey_Z2F_nonpos (y : Z) (k : Z) :
  y <= 0 -> fkey (JS.Z2F y) = Some k -> k <= 0.
Proof.
  intros Hy Hk. pose proof unit_pos as HU.
  rewrite fkey_Z2F in Hk. injection Hk as <-.
  destruct (Z.eq_dec y 0) as [-> | Hne]; [cbn; lia|].
  rewrite Z.sgn_neg by lia.
  assert (0 <= RK (Z.abs y * unit_key) 1) by (apply RK_nonneg; nia). lia.
Qed.

End MoreFloat.

(** * Further properties of the simulation *)

Module SeriesFacts.
Import FloatOrder Rounding Ops FloatArith Round2 Growth MoreFloat.

(** The points of the closed form. *)
Lemma closed_form_point (i : inputs) (n : Z) (m : nat) (p : point) :
  graphData (closed_form i n) !! m = Some p ->
  (m <= months n)%nat /\
  p = match m with
      | O => Point 0 (sommeInitiale i) (sommeInitiale i)
      | S _ => spec_point i m
      end.
Proof.
  intros Hp.
  assert (Hm : (m <= months n)%nat).
  { apply lookup_lt_Some in Hp. rewrite closed_form_length in Hp. lia. }
  split; [exact Hm|]. destruct m as [|m].
  - cbn in Hp. now injection Hp as <-.
  - rewrite closed_form_lookup in Hp by lia. now injection Hp as <-.
Qed.

Lemma months_le (n : Z) : 1 <= n <= 50 -> (months n <= 600)%nat.
Proof. unfold months. lia. Qed.

Lemma small_lt_inf (m : Z) : 0 <= m <= 600 -> m * unit_key < inf_key.
Proof.
  intros H. pose proof unit_pos.
  apply Z.le_lt_trans with (600 * unit_key); [nia | reflexivity].
Qed.

(** The key of the amount contributed after [m] months. *)
Definition investi_key (ks kc m : Z) : Z :=
  RK (ks + RK (kc * (m * unit_key)) unit_key) 1.

Lemma investi_fkey (sI c : float) (ks kc m : Z) :
  fkey sI = Some ks -> fkey c = Some kc ->
  0 <= ks -> 0 <= kc < inf_key -> 0 <= m <= 600 ->
  fkey (sI + c * JS.Z2F m) = Some (investi_key ks kc m).
Proof.
  intros Hs Hc H0s H0c Hm. pose proof unit_pos as HU.
  assert (HZ : fkey (JS.Z2F m) = Some (m * unit_key)).
  { apply fkey_Z2F_small. split; [lia|].
    apply Z.le_lt_trans with 600; [lia | reflexivity]. }
  pose proof (small_lt_inf m Hm) as Hlt.
  pose proof (fmul_key c (JS.Z2F m) kc (m * unit_key) Hc HZ H0c ltac:(nia)) as Hmul.
  apply (fadd_key sI _ ks _ Hs Hmul H0s).
  apply RK_nonneg; nia.
Qed.

Lemma investi_key_nonneg (ks kc m : Z) :
  0 <= ks -> 0 <= kc -> 0 <= m -> 0 <= investi_key ks kc m.
Proof.
  intros. pose proof unit_pos. unfold investi_key.
  apply RK_nonneg; [|lia].
  assert (0 <= RK (kc * (m * unit_key)) unit_key) by (apply RK_nonneg; nia). lia.
Qed.

Lemma investi_key_mono (ks kc a b : Z) :
  0 <= ks -> 0 <= kc -> 0 <= a <= b ->
  investi_key ks kc a <= investi_key ks kc b.
Proof.
  intros Hs Hc Hab. pose proof unit_pos as HU. unfold investi_key.
  assert (H1 : RK (kc * (a * unit_key)) unit_key <= RK (kc * (b * unit_key)) unit_key).
  { apply RK_mono; [| lia | lia |].
    - apply Z.mul_nonneg_nonneg; [lia|]. apply Z.mul_nonneg_nonneg; lia.
    - apply Z.mul_le_mono_nonneg_r; [lia|].
      apply Z.mul_le_mono_nonneg_l; [lia|].
      apply Z.mul_le_mono_nonneg_r; lia. }
  assert (H0 : 0 <= RK (kc * (a * unit_key)) unit_key).
  { apply RK_nonneg; [|lia].
    apply Z.mul_nonneg_nonneg; [lia|]. apply Z.mul_nonneg_nonneg; lia. }
  apply RK_mono; lia.
Qed.

Lemma investi_key_0 (sI : float) (ks kc : Z) :
  fkey sI = Some ks -> 0 <= ks -> investi_key ks kc 0 = ks.
Proof.
  intros Hs H0. pose proof unit_pos as HU. unfold investi_key.
  rewrite Z.mul_0_l, Z.mul_0_r, RK_0, Z.add_0_r by lia.
  now apply (fkey_RK sI).
Qed.

Section Validated.
Variables (i : inputs) (n : Z).
Hypothesis Hvalid : validated i n.

(** The keys of the point of index [m]. *)
Lemma point_keys (m : nat) (p : point) :
  graphData (closed_form i n) !! m = Some p ->
  exists ks kc kb,
    fkey (sommeInitiale i) = Some ks /\ 0 <= ks /\
    fkey (mensualite i) = Some kc /\ 0 <= kc /\
    fkey (balance i m) = Some kb /\ 0 <= kb /\
    fkey (investi p) = Some (investi_key ks kc (Z.of_nat m)) /\
    fkey (total p) = Some (match m with O => kb | S _ => round2_key kb end).
Proof.
  intros Hp. destruct (closed_form_point i n m p Hp) as [Hm ->].
  pose proof Hvalid as (HsI & Hc & _ & Hn & _).
  pose proof (months_le n Hn) as H600.
  destruct (nonneg_real_key _ HsI) as (ks & Hks & [H0s _]).
  destruct (nonneg_real_key _ Hc) as (kc & Hkc & H0c).
  destruct (balance_key i n Hvalid m) as (kb & Hkb & H0b).
  exists ks, kc, kb. repeat (split; [first [assumption | lia]|]).
  destruct m as [|m].
  - cbn [investi total]. cbn [balance] in Hkb. change (Z.of_nat 0) with 0.
    rewrite (investi_key_0 _ ks kc Hks H0s). split; [exact Hks | exact Hkb].
  - unfold spec_point. cbn [investi total]. split.
    + apply investi_fkey; auto; lia.
    + now apply round2_fkey.
Qed.

End Validated.

End SeriesFacts.

(** X2: on validated parameters every stored total and every contributed
    amount of the series, the final total and the invested amount are
    non-negative Numbers; none of them is NaN. *)
Theorem series_nonnegative (i : inputs) (n : Z) (fuel : nat) :
  validated i n -> (months n < fuel)%nat ->
  exists r console,
    calculateInvestment fuel i = Some (r, console) /\
    (0 <=? montantTotal r)%float = true /\
    (0 <=? montantInvesti r)%float = true /\
    forall m p, graphData r !! m = Some p ->
      (0 <=? total p)%float = true /\ is_nan (total p) = false /\
      (0 <=? investi p)%float = true /\ is_nan (investi p) = false.
Proof.
  intros Hvalid Hfuel. pose proof Hvalid as (HsI & Hc & _ & Hn & Hy).
  eexists _, _. split; [apply (calculateInvestment_run i n fuel Hn Hy Hfuel)|].
  pose proof (SeriesFacts.months_le n Hn) as H600.
  destruct (Growth.nonneg_real_key _ HsI) as (ks & Hks & [H0s _]).
  destruct (Growth.nonneg_real_key _ Hc) as (kc & Hkc & H0c).
  split; [|split].
  - cbn [closed_form montantTotal].
    destruct (Growth.balance_key i n Hvalid (months n)) as (kb & Hkb & H0b).
    rewrite FloatOrder.leb_fkey, (Round2.round2_fkey _ kb Hkb H0b).
    apply Z.leb_le. now apply Round2.round2_key_nonneg.
  - cbn [closed_form montantInvesti].
    rewrite Counter.Z2F_months by lia.
    rewrite FloatOrder.leb_fkey.
    rewrite (SeriesFacts.investi_fkey _ _ ks kc (12 * n) Hks Hkc H0s H0c ltac:(lia)).
    apply Z.leb_le. apply SeriesFacts.investi_key_nonneg; lia.
  - intros m p Hp.
    destruct (SeriesFacts.point_keys i n Hvalid m p Hp)
      as (ks' & kc' & kb & Hks' & H0s' & Hkc' & H0c' & Hkb & H0b & Hi & Ht).
    rewrite !FloatOrder.leb_fkey, !FloatOrder.is_nan_fkey, Hi, Ht.
    change (FloatOrder.fkey 0) with (Some 0).
    repeat split; try reflexivity; apply Z.leb_le.
    + destruct m; [assumption | now apply Round2.round2_key_nonneg].
    + apply SeriesFacts.investi_key_nonneg; lia.
Qed.

Lemma series_nonnegative_witness :
  exists r console,
    calculateInvestment 37 default_inputs = Some (r, console) /\
    (0 <=? montantTotal r)%float = true /\
    (0 <=? montantInvesti r)%float = true /\
    forall m p, graphData r !! m = Some p ->
      (0 <=? total p)%float = true /\ is_nan (total p) = false /\
      (0 <=? investi p)%float = true /\ is_nan (investi p) = false.
Proof.
  apply (series_nonnegative default_inputs 3 37).
  - exact default_inputs_validated.
  - vm_compute. lia.
Defined.

(** X3: on validated parameters the contributed amounts of the series do not
    decrease with the index. *)
Theorem contributed_nondecreasing (i : inputs) (n : Z) (fuel : nat) :
  validated i n -> (months n < fuel)%nat ->
  exists r console,
    calculateInvestment fuel i = Some (r, console) /\
    forall a b pa pb,
      (a <= b)%nat ->
      graphData r !! a = Some pa -> graphData r !! b = Some pb ->
      (investi pa <=? investi pb)%float = true.
Proof.
  intros Hvalid Hfuel. pose proof Hvalid as (_ & _ & _ & Hn & Hy).
  eexists _, _. split; [apply (calculateInvestment_run i n fuel Hn Hy Hfuel)|].
  intros a b pa pb Hab Ha Hb.
  destruct (SeriesFacts.point_keys i n Hvalid a pa Ha)
    as (ks & kc & _ & Hks & H0s & Hkc & H0c & _ & _ & Hia & _).
  destruct (SeriesFacts.point_keys i n Hvalid b pb Hb)
    as (ks' & kc' & _ & Hks' & _ & Hkc' & _ & _ & _ & Hib & _).
  rewrite Hks in Hks'. injection Hks' as <-.
  rewrite Hkc in Hkc'. injection Hkc' as <-.
  rewrite FloatOrder.leb_fkey, Hia, Hib. apply Z.leb_le.
  apply SeriesFacts.investi_key_mono; lia.
Qed.

Lemma contributed_nondecreasing_witness :
  exists r console,
    calculateInvestment 37 default_inputs = Some (r, console) /\
    forall a b pa pb,
      (a <= b)%nat ->
      graphData r !! a = Some pa -> graphData r !! b = Some pb ->
      (investi pa <=? investi pb)%float = true.
Proof.
  apply (contributed_nondecreasing default_inputs 3 37).
  - exact default_inputs_validated.
  - vm_compute. lia.
Defined.

(** X4: on validated parameters the totals of the result are those of the last
    point of the series: the final total is its stored total and the
    invested amount its contributed amount. *)
Theorem result_is_last_point (i : inputs) (n : Z) (fuel : nat) :
  validated i n -> (months n < fuel)%nat ->
  exists r console p,
    calculateInvestment fuel i = Some (r, console) /\
    last (graphData r) = Some p /\
    mois p = JS.Z2F (n * 12) /\
    montantTotal r = total p /\
    montantInvesti r = investi p.
Proof.
  intros Hvalid Hfuel. pose proof Hvalid as (_ & _ & _ & Hn & Hy).
  exists (closed_form i n), (snd (calculateRecommendation (trancheRevenu i))),
         (spec_point i (months n)).
  split; [apply (calculateInvestment_run i n fuel Hn Hy Hfuel)|].
  assert (Hm : Z.of_nat (months n) = 12 * n) by (unfold months; lia).
  split; [|split; [|split]].
  - rewrite last_lookup, closed_form_length. cbn [Nat.pred].
    apply closed_form_lookup. unfold months. lia.
  - unfold spec_point. cbn [mois]. f_equal. lia.
  - reflexivity.
  - unfold closed_form, spec_point. cbn [montantInvesti investi].
    rewrite Counter.Z2F_months by lia. now rewrite Hm.
Qed.

Lemma result_is_last_point_witness :
  exists r console p,
    calculateInvestment 37 default_inputs = Some (r, console) /\
    last (graphData r) = Some p /\
    mois p = JS.Z2F (3 * 12) /\
    montantTotal r = total p /\
    montantInvesti r = investi p.
Proof.
  apply (result_is_last_point default_inputs 3 37).
  - exact default_inputs_validated.
  - vm_compute. lia.
Defined.

(** ** Nothing invested, and no interest *)

(** The balance without interest: the contributions added one by one to the
    initial capital, as Numbers. *)
Fixpoint accumulate (i : inputs) (m : nat) : float :=
  match m with
  | O => sommeInitiale i
  | S m' => (accumulate i m' + mensualite i)%float
  end.

Module ZeroCases.
Import FloatOrder Rounding Ops FloatArith Round2 Growth MoreFloat SeriesFacts.

Lemma eqb_zero_key (x : float) : (x =? 0)%float = true -> fkey x = Some 0.
Proof.
  rewrite eqb_fkey. change (fkey 0) with (Some 0).
  destruct (fkey x) as [k|]; [|discriminate].
  intros H. apply Z.eqb_eq in H. now subst.
Qed.

Lemma key_zero_eqb (x : float) : fkey x = Some 0 -> (x =? 0)%float = true.
Proof. intros H. rewrite eqb_fkey, H. reflexivity. Qed.

Lemma round2_key_0 : round2_key 0 = 0.
Proof. vm_compute. reflexivity. Qed.

Lemma fsub_zero (a b : float) :
  fkey a = Some 0 -> fkey b = Some 0 -> fkey (a - b) = Some 0.
Proof.
  intros Ha Hb. unfold fkey. rewrite sub_spec. unfold SF64sub.
  destruct (fkey_shape a 0 Ha ltac:(lia)) as [sa Ea _ | ma ea Ea Ba _ Hka | Ea E];
    [| lia | discriminate E].
  destruct (fkey_shape b 0 Hb ltac:(lia)) as [sb Eb _ | mb eb Eb Bb _ Hkb | Eb E];
    [| lia | discriminate E].
  rewrite Ea, Eb. now destruct sa, sb.
Qed.

(** Multiplying by a Number equal to 1 changes nothing. *)
Lemma mul_one_key (x y : float) (k : Z) :
  fkey x = Some k -> 0 <= k -> fkey y = Some unit_key ->
  fkey (x * y) = Some k.
Proof.
  intros Hx H0 Hy. pose proof unit_pos as HU.
  assert (HUi : unit_key < inf_key) by reflexivity.
  pose proof (fkey_le_inf x k Hx H0) as Hle.
  destruct (Z.eq_dec k inf_key) as [-> | Hne].
  - destruct (mul_ge x y inf_key unit_key Hx Hy H0 ltac:(lia)) as (kp & Hkp & Hge).
    assert (kp <= inf_key) by (apply (fkey_le_inf _ _ Hkp); lia).
    rewrite Hkp. f_equal. lia.
  - rewrite (fmul_key x y k unit_key Hx Hy) by lia. f_equal.
    rewrite <- (fkey_RK x k Hx H0) at 2.
    apply RK_ext; nia.
Qed.

(** With a rate equal to zero the monthly growth factor is 1. *)
Lemma factor_zero_rate (rate : float) :
  (rate =? 0)%float = true -> fkey (1 + rate / 100 / 12) = Some unit_key.
Proof.
  intros Hr. apply eqb_zero_key in Hr. pose proof unit_pos as HU.
  pose proof Growth.unit_lt_inf as HI.
  pose proof (fdiv_key rate 100 0 (100 * unit_key) Hr Growth.key_of_100
                ltac:(lia) ltac:(lia)) as H1.
  rewrite Z.mul_0_l, RK_0 in H1 by lia.
  pose proof (fdiv_key _ 12 0 (12 * unit_key) H1 Growth.key_of_12
                ltac:(lia) ltac:(lia)) as H2.
  rewrite Z.mul_0_l, RK_0 in H2 by lia.
  rewrite (fadd_key 1 _ unit_key 0 Growth.key_of_1 H2) by lia.
  rewrite Z.add_0_r. rewrite (fkey_RK 1 _ Growth.key_of_1) by lia. reflexivity.
Qed.

Section ZeroRate.
Variables (i : inputs) (n : Z).
Hypothesis Hvalid : validated i n.
Hypothesis Hrate : (tauxAnnuel i =? 0)%float = true.

Lemma balance_accumulate (m : nat) :
  exists k, fkey (balance i m) = Some k /\ fkey (accumulate i m) = Some k /\ 0 <= k.
Proof.
  pose proof Hvalid as (HsI & Hc & _).
  destruct (nonneg_real_key _ Hc) as (kc & Hkc & [H0c _]).
  induction m as [|m (k & Hb & Ha & H0)].
  - destruct (nonneg_real_key _ HsI) as (ks & Hks & [H0s _]). exists ks. auto.
  - pose proof (fadd_key _ _ k kc Hb Hkc H0 H0c) as Hsum.
    assert (H0' : 0 <= RK (k + kc) 1) by (apply RK_nonneg; lia).
    exists (RK (k + kc) 1). split; [|split; [|exact H0']].
    + cbn [balance]. apply mul_one_key; [exact Hsum | exact H0' |].
      now apply factor_zero_rate.
    + cbn [accumulate]. now apply fadd_key.
Qed.

End ZeroRate.

Section NothingInvested.
Variables (i : inputs) (n : Z).
Hypothesis Hvalid : validated i n.
Hypothesis HsI : (sommeInitiale i =? 0)%float = true.
Hypothesis Hc : (mensualite i =? 0)%float = true.

Lemma balance_zero (m : nat) : fkey (balance i m) = Some 0.
Proof.
  pose proof Hvalid as (_ & _ & Hrate & _).
  destruct (factor_key _ Hrate) as (ky & Hky & Hy).
  pose proof unit_pos as HU.
  induction m as [|m IH]; [now apply eqb_zero_key|].
  cbn [balance].
  pose proof (fadd_key _ _ 0 0 IH (eqb_zero_key _ Hc) ltac:(lia) ltac:(lia)) as Hs.
  rewrite Z.add_0_l, RK_0 in Hs by lia.
  rewrite (fmul_key _ _ 0 ky Hs Hky) by (assert (0 < inf_key) by reflexivity; lia).
  now rewrite Z.mul_0_l, RK_0.
Qed.

End NothingInvested.

End ZeroCases.

(** X5: with no initial capital and no contribution (on otherwise validated
    parameters, whatever the rate) the series is flat at zero: every stored
    total and every contributed amount is zero, and so are the final total
    and the gain. *)
Theorem nothing_invested_flat (i : inputs) (n : Z) (fuel : nat) :
  validated i n -> (months n < fuel)%nat ->
  (sommeInitiale i =? 0)%float = true -> (mensualite i =? 0)%float = true ->
  exists r console,
    calculateInvestment fuel i = Some (r, console) /\
    (montantTotal r =? 0)%float = true /\
    (gains r =? 0)%float = true /\
    forall m p, graphData r !! m = Some p ->
      (total p =? 0)%float = true /\ (investi p =? 0)%float = true.
Proof.
  intros Hvalid Hfuel HsI Hc. pose proof Hvalid as (_ & _ & _ & Hn & Hy).
  eexists _, _. split; [apply (calculateInvestment_run i n fuel Hn Hy Hfuel)|].
  pose proof (ZeroCases.balance_zero i n Hvalid HsI Hc) as Hb.
  pose proof (ZeroCases.eqb_zero_key _ HsI) as Hks.
  pose proof (ZeroCases.eqb_zero_key _ Hc) as Hkc.
  pose proof (SeriesFacts.months_le n Hn) as H600.
  split; [|split].
  - apply ZeroCases.key_zero_eqb. cbn [closed_form montantTotal].
    rewrite (Round2.round2_fkey _ 0 (Hb _)) by lia. now rewrite ZeroCases.round2_key_0.
  - apply ZeroCases.key_zero_eqb. cbn [closed_form gains].
    rewrite (Round2.round2_fkey _ 0); [now rewrite ZeroCases.round2_key_0 | | lia].
    apply ZeroCases.fsub_zero; [apply Hb|].
    rewrite Counter.Z2F_months by lia.
    rewrite (SeriesFacts.investi_fkey _ _ 0 0 (12 * n) Hks Hkc) by
      (assert (0 < FloatOrder.inf_key) by reflexivity; lia).
    reflexivity.
  - intros m p Hp.
    destruct (SeriesFacts.point_keys i n Hvalid m p Hp)
      as (ks & kc & kb & Hks' & _ & Hkc' & _ & Hkb & _ & Hi & Ht).
    rewrite Hks in Hks'. injection Hks' as <-.
    rewrite Hkc in Hkc'. injection Hkc' as <-.
    rewrite Hb in Hkb. injection Hkb as <-.
    split; apply ZeroCases.key_zero_eqb.
    + rewrite Ht. destruct m; [reflexivity | now rewrite ZeroCases.round2_key_0].
    + rewrite Hi. reflexivity.
Qed.

Lemma nothing_invested_flat_witness :
  exists r console,
    calculateInvestment 37 (Inputs 0 0 3 3 "moins-2000") = Some (r, console) /\
    (montantTotal r =? 0)%float = true /\
    (gains r =? 0)%float = true /\
    forall m p, graphData r !! m = Some p ->
      (total p =? 0)%float = true /\ (investi p =? 0)%float = true.
Proof.
  apply (nothing_invested_flat (Inputs 0 0 3 3 "moins-2000") 3 37).
  - unfold validated. repeat split; try reflexivity; lia.
  - vm_compute. lia.
  - reflexivity.
  - reflexivity.
Defined.

(** X6: with a rate of zero (on otherwise validated parameters) there is no
    interest: the stored total of month [m] is, as a Number, the rounding to
    two decimals of the initial capital plus [m] contributions added one by
    one, and the final total that of the last month. *)
Theorem zero_rate_no_interest (i : inputs) (n : Z) (fuel : nat) :
  validated i n -> (months n < fuel)%nat ->
  (tauxAnnuel i =? 0)%float = true ->
  exists r console,
    calculateInvestment fuel i = Some (r, console) /\
    (montantTotal r =? round2 (accumulate i (months n)))%float = true /\
    forall m p, (1 <= m)%nat -> graphData r !! m = Some p ->
      (total p =? round2 (accumulate i m))%float = true.
Proof.
  intros Hvalid Hfuel Hrate. pose proof Hvalid as (_ & _ & _ & Hn & Hy).
  eexists _, _. split; [apply (calculateInvestment_run i n fuel Hn Hy Hfuel)|].
  assert (Heq : forall m, (round2 (balance i m) =? round2 (accumulate i m))%float = true).
  { intros m.
    destruct (ZeroCases.balance_accumulate i n Hvalid Hrate m) as (k & Hb & Ha & H0).
    rewrite FloatOrder.eqb_fkey, (Round2.round2_fkey _ k Hb H0),
      (Round2.round2_fkey _ k Ha H0).
    apply Z.eqb_refl. }
  split; [apply Heq|].
  intros m p Hm Hp.
  destruct (SeriesFacts.closed_form_point i n m p Hp) as [_ ->].
  destruct m as [|m]; [lia|]. apply Heq.
Qed.

Lemma zero_rate_no_interest_witness :
  exists r console,
    calculateInvestment 37 (Inputs 0 120 0 3 "moins-2000") = Some (r, console) /\
    (montantTotal r
       =? round2 (accumulate (Inputs 0 120 0 3 "moins-2000") (months 3)))%float = true /\
    forall m p, (1 <= m)%nat -> graphData r !! m = Some p ->
      (total p =? round2 (accumulate (Inputs 0 120 0 3 "moins-2000") m))%float = true.
Proof.
  apply (zero_rate_no_interest (Inputs 0 120 0 3 "moins-2000") 3 37).
  - unfold validated. repeat split; try reflexivity; lia.
  - vm_compute. lia.
  - reflexivity.
Defined.

(** ** The validator, twice and on integers *)

(** The names that [validateInput] has a [case] for. *)
Definition numeric_field (name : string) : bool :=
  existsb (String.eqb name) ["sommeInitiale"; "mensualite"; "tauxAnnuel"; "nombreAnnees"].

(** An integer clamped to [[lo, hi]]. *)
Definition clampZ (lo hi y : Z) : Z := Z.max lo (Z.min hi y).

Module ClampFacts.
Import FloatOrder Rounding Ops FloatArith MoreFloat.

Lemma ltb_irrefl (x : float) : (x <? x)%float = false.
Proof. rewrite ltb_fkey. destruct (fkey x); [apply Z.ltb_irrefl | reflexivity]. Qed.

Lemma ltb_nan_l (x : float) : (nan <? x)%float = false.
Proof. now rewrite ltb_fkey, fkey_nan. Qed.

Lemma ltb_nan_r (x : float) : (x <? nan)%float = false.
Proof. rewrite ltb_fkey, fkey_nan. now destruct (fkey x). Qed.

Lemma ltb_true_not_nan (a b : float) :
  (a <? b)%float = true -> is_nan a = false /\ is_nan b = false.
Proof.
  rewrite ltb_fkey, !is_nan_fkey.
  destruct (fkey a), (fkey b); try discriminate. auto.
Qed.

Lemma Math_max_nan (lo : float) : JS.Math_max lo nan = nan.
Proof. unfold JS.Math_max. change (is_nan nan) with true. now rewrite orb_true_r. Qed.

Lemma Math_min_nan (hi : float) : JS.Math_min hi nan = nan.
Proof. unfold JS.Math_min. change (is_nan nan) with true. now rewrite orb_true_r. Qed.

Lemma Math_max_self (x : float) : is_nan x = false -> JS.Math_max x x = x.
Proof.
  intros H. unfold JS.Math_max. rewrite H, ltb_irrefl. cbn [orb].
  now destruct (get_sign x).
Qed.

Lemma Math_min_self (x : float) : is_nan x = false -> JS.Math_min x x = x.
Proof.
  intros H. unfold JS.Math_min. rewrite H, ltb_irrefl. cbn [orb].
  now destruct (get_sign x).
Qed.

(** [Math.max(lo, v)] is [v] or [lo]; so is [Math.min(hi, w)]. *)
Lemma Math_max_cases (lo v : float) :
  is_nan lo = false ->
  (JS.Math_max lo v = v /\ JS.Math_max lo (JS.Math_max lo v) = JS.Math_max lo v) \/
  JS.Math_max lo v = lo.
Proof.
  intros Hlo. destruct (is_nan v) eqn:Hv.
  { apply is_nan_eq in Hv. subst v. left. now rewrite !Math_max_nan. }
  assert (E : JS.Math_max lo v =
              if (lo <? v)%float then v else if (v <? lo)%float then lo
              else if get_sign lo then v else lo).
  { unfold JS.Math_max. now rewrite Hlo, Hv. }
  destruct (lo <? v)%float eqn:E1; [left; rewrite E; split; [reflexivity|] |].
  { unfold JS.Math_max. now rewrite Hlo, Hv, E1. }
  destruct (v <? lo)%float eqn:E2; [now right|].
  destruct (get_sign lo) eqn:E3; [|now right].
  left. rewrite E. split; [reflexivity|].
  unfold JS.Math_max. now rewrite Hlo, Hv, E1, E2, E3.
Qed.

Lemma Math_min_cases (hi w : float) :
  is_nan hi = false ->
  (JS.Math_min hi w = w /\ JS.Math_min hi (JS.Math_min hi w) = JS.Math_min hi w) \/
  JS.Math_min hi w = hi.
Proof.
  intros Hhi. destruct (is_nan w) eqn:Hw.
  { apply is_nan_eq in Hw. subst w. left. now rewrite !Math_min_nan. }
  assert (E : JS.Math_min hi w =
              if (hi <? w)%float then hi else if (w <? hi)%float then w
              else if get_sign hi then hi else w).
  { unfold JS.Math_min. now rewrite Hhi, Hw. }
  destruct (hi <? w)%float eqn:E1; [now right|].
  destruct (w <? hi)%float eqn:E2; [left; rewrite E; split; [reflexivity|] |].
  { unfold JS.Math_min. now rewrite Hhi, Hw, E1, E2. }
  destruct (get_sign hi) eqn:E3; [now right|].
  left. rewrite E. split; [reflexivity|].
  unfold JS.Math_min. now rewrite Hhi, Hw, E1, E2, E3.
Qed.

(** [Math.max(lo, Math.max(lo, v))] is [Math.max(lo, v)], the very same Number. *)
Lemma Math_max_idem (lo v : float) :
  is_nan lo = false -> JS.Math_max lo (JS.Math_max lo v) = JS.Math_max lo v.
Proof.
  intros Hlo. destruct (Math_max_cases lo v Hlo) as [[_ E] | E]; [exact E|].
  rewrite E. now apply Math_max_self.
Qed.

(** Clamping twice is clamping once. *)
Lemma clamp_idem (lo hi v : float) :
  (lo <? hi)%float = true ->
  JS.Math_min hi (JS.Math_max lo (JS.Math_min hi (JS.Math_max lo v)))
  = JS.Math_min hi (JS.Math_max lo v).
Proof.
  intros Hlt. destruct (ltb_true_not_nan _ _ Hlt) as [Hlo Hhi].
  destruct (Math_min_cases hi (JS.Math_max lo v) Hhi) as [[E1 E2] | E].
  - rewrite E1 at 1. rewrite Math_max_idem by exact Hlo. reflexivity.
  - rewrite E.
    assert (Hm : JS.Math_max lo hi = hi).
    { unfold JS.Math_max. now rewrite Hlo, Hhi, Hlt. }
    rewrite Hm. now apply Math_min_self.
Qed.

(** A clamped value is not reported. *)
Lemma Math_max_not_below (lo v : float) (klo : Z) :
  fkey lo = Some klo -> (JS.Math_max lo v <? lo)%float = false.
Proof.
  intros Hlo. destruct (fkey v) as [kv|] eqn:Hv.
  - destruct (Math_max_fkey lo v klo kv Hlo Hv) as [Hk _].
    rewrite ltb_fkey, Hk, Hlo. apply Z.ltb_ge. lia.
  - assert (is_nan v = true) as Hn by now rewrite is_nan_fkey, Hv.
    apply is_nan_eq in Hn. subst v. now rewrite Math_max_nan, ltb_nan_l.
Qed.

Lemma clamp_not_outside (lo hi v : float) (klo khi : Z) :
  fkey lo = Some klo -> fkey hi = Some khi -> klo <= khi ->
  let c := JS.Math_min hi (JS.Math_max lo v) in
  (c <? lo)%float || (hi <? c)%float = false.
Proof.
  intros Hlo Hhi Hle c. subst c. destruct (fkey v) as [kv|] eqn:Hv.
  - destruct (Math_max_fkey lo v klo kv Hlo Hv) as [Hk1 _].
    destruct (Math_min_fkey hi _ khi _ Hhi Hk1) as [Hk2 _].
    rewrite !ltb_fkey, Hk2, Hlo, Hhi. apply orb_false_intro; apply Z.ltb_ge; lia.
  - assert (is_nan v = true) as Hn by now rewrite is_nan_fkey, Hv.
    apply is_nan_eq in Hn. subst v.
    now rewrite Math_max_nan, Math_min_nan, ltb_nan_l, ltb_nan_r.
Qed.

(** *** The duration field on integers *)

Definition duration_ok (y : Z) : bool :=
  PrimFloat.Leibniz.eqb (JS.Math_min 50 (JS.Math_max 1 (JS.Z2F y))) (JS.Z2F y).

Lemma duration_table : forallb duration_ok (Counter.Zrange 1 50) = true.
Proof. vm_compute. reflexivity. Qed.

Lemma fkey_51 : 51 * unit_key < inf_key.
Proof. reflexivity. Qed.

Lemma Z2F_key_cases (y : Z) :
  exists k, fkey (JS.Z2F y) = Some k /\
    (y <= 0 -> k <= 0) /\ (1 <= y -> unit_key <= k) /\
    (y <= 50 -> k <= 50 * unit_key) /\ (51 <= y -> 51 * unit_key <= k).
Proof.
  pose proof unit_pos as HU.
  assert (Hp : 51 < 2 ^ prec) by reflexivity.
  destruct (fkey (JS.Z2F y)) as [k|] eqn:Hk.
  2:{ rewrite fkey_Z2F in Hk. discriminate Hk. }
  exists k. split; [reflexivity|]. repeat split; intros Hy.
  - now apply (fkey_Z2F_nonpos y).
  - pose proof (fkey_Z2F_ge y 1 k ltac:(lia) Hy Hk). lia.
  - destruct (Z_le_gt_dec y 0) as [Hle | Hgt].
    + pose proof (fkey_Z2F_nonpos y k Hle Hk). lia.
    + rewrite fkey_Z2F_small in Hk by lia. injection Hk as <-. nia.
  - now apply (fkey_Z2F_ge y 51).
Qed.

Lemma clamp_duration (y : Z) :
  JS.Math_min 50 (JS.Math_max 1 (JS.Z2F y)) = JS.Z2F (clampZ 1 50 y).
Proof.
  pose proof unit_pos as HU. unfold clampZ.
  destruct (Z2F_key_cases y) as (k & Hk & Hneg & Hpos & Hsmall & Hbig).
  destruct (Z_le_gt_dec y 0) as [H0 | H0]; [|destruct (Z_le_gt_dec y 50) as [H50 | H50]].
  - replace (Z.max 1 (Z.min 50 y)) with 1 by lia.
    specialize (Hneg H0).
    assert (Hm : JS.Math_max 1 (JS.Z2F y) = 1%float).
    { unfold JS.Math_max. rewrite !is_nan_fkey, !ltb_fkey, Hk, Growth.key_of_1. cbn [orb].
      destruct (Z.ltb_spec unit_key k); [lia|].
      destruct (Z.ltb_spec k unit_key); [reflexivity | lia]. }
    rewrite Hm. reflexivity.
  - replace (Z.max 1 (Z.min 50 y)) with y by lia.
    apply FloatAxioms.Leibniz.eqb_spec.
    apply (proj1 (forallb_forall _ _) duration_table y), Counter.Zrange_In. simpl. lia.
  - replace (Z.max 1 (Z.min 50 y)) with 50 by lia.
    specialize (Hbig ltac:(lia)).
    assert (Hm : JS.Math_max 1 (JS.Z2F y) = JS.Z2F y).
    { unfold JS.Math_max. rewrite !is_nan_fkey, !ltb_fkey, Hk, Growth.key_of_1. cbn [orb].
      destruct (Z.ltb_spec unit_key k); [reflexivity | lia]. }
    rewrite Hm. unfold JS.Math_min.
    rewrite !is_nan_fkey, !ltb_fkey, Hk, ValidateFacts.fkey_50. cbn [orb].
    change ValidateFacts.unit_key with unit_key.
    destruct (Z.ltb_spec (50 * unit_key) k); [reflexivity | lia].
Qed.

Lemma duration_reported (y : Z) :
  (JS.Z2F y <? 1)%float || (50 <? JS.Z2F y)%float = (y <? 1) || (50 <? y).
Proof.
  pose proof unit_pos as HU.
  destruct (Z2F_key_cases y) as (k & Hk & Hneg & Hpos & Hsmall & Hbig).
  rewrite !ltb_fkey, Hk, Growth.key_of_1, ValidateFacts.fkey_50.
  change ValidateFacts.unit_key with unit_key.
  destruct (Z.ltb_spec y 1), (Z.ltb_spec 50 y), (Z.ltb_spec k unit_key),
    (Z.ltb_spec (50 * unit_key) k); try reflexivity; lia.
Qed.

End ClampFacts.

(** X7: validating a validated value changes nothing: for every name and every
    Number (NaN included), the second pass returns the very same value, and
    it leaves no message for a numeric field, whatever the first pass
    reported. *)
Theorem validateInput_idempotent (errs : gmap string string) (name : string)
    (v : float) :
  let r1 := validateInput errs name v in
  let r2 := validateInput (errors r1) name (value r1) in
  value r2 = value r1 /\
  errors r2 = if numeric_field name then delete name (errors r1) else errors r1.
Proof.
  cbv zeta. unfold numeric_field. cbn [existsb].
  destruct (String.eqb_spec name "sommeInitiale") as [-> | N1].
  { rewrite !ValidateFacts.validateInput_sommeInitiale. cbn [value errors orb].
    rewrite (ClampFacts.Math_max_not_below 0 v 0 ValidateFacts.fkey_0).
    split; [now apply ClampFacts.Math_max_idem | reflexivity]. }
  destruct (String.eqb_spec name "mensualite") as [-> | N2].
  { rewrite !ValidateFacts.validateInput_mensualite. cbn [value errors orb].
    rewrite (ClampFacts.Math_max_not_below 0 v 0 ValidateFacts.fkey_0).
    split; [now apply ClampFacts.Math_max_idem | reflexivity]. }
  destruct (String.eqb_spec name "tauxAnnuel") as [-> | N3].
  { rewrite !ValidateFacts.validateInput_tauxAnnuel. cbn [value errors orb].
    rewrite (ClampFacts.clamp_not_outside 0 100 v _ _
               ValidateFacts.fkey_0 ValidateFacts.fkey_100) by
      (pose proof ValidateFacts.unit_key_pos; lia).
    split; [now apply ClampFacts.clamp_idem | reflexivity]. }
  destruct (String.eqb_spec name "nombreAnnees") as [-> | N4].
  { rewrite !ValidateFacts.validateInput_nombreAnnees. cbn [value errors orb].
    rewrite (ClampFacts.clamp_not_outside 1 50 v _ _
               ValidateFacts.fkey_1 ValidateFacts.fkey_50) by
      (pose proof ValidateFacts.unit_key_pos; lia).
    split; [now apply ClampFacts.clamp_idem | reflexivity]. }
  cbn [orb]. unfold validateInput.
  destruct (String.eqb_spec name "sommeInitiale"); [contradiction|].
  destruct (String.eqb_spec name "mensualite"); [contradiction|].
  destruct (String.eqb_spec name "tauxAnnuel"); [contradiction|].
  destruct (String.eqb_spec name "nombreAnnees"); [contradiction|].
  cbn [value errors].
  destruct (String.eqb_spec name "sommeInitiale"); [contradiction|].
  destruct (String.eqb_spec name "mensualite"); [contradiction|].
  destruct (String.eqb_spec name "tauxAnnuel"); [contradiction|].
  destruct (String.eqb_spec name "nombreAnnees"); [contradiction|].
  split; reflexivity.
Qed.

(** X8: on an integer the duration field is the integer clamped to [1 .. 50], as
    the Number of that integer, whatever its size (what [parseInt] gives is
    an integer), and the field is reported exactly when the integer is
    outside of [1 .. 50]. *)
Theorem validateInput_integer_duration (errs : gmap string string) (y : Z) :
  let r := validateInput errs "nombreAnnees" (JS.Z2F y) in
  value r = JS.Z2F (clampZ 1 50 y) /\
  errors r !! "nombreAnnees" =
    if (y <? 1) || (50 <? y) then Some "La durée doit être entre 1 et 50 ans"
    else None.
Proof.
  cbv zeta. rewrite ValidateFacts.validateInput_nombreAnnees. cbn [value errors].
  split; [apply ClampFacts.clamp_duration|].
  rewrite ClampFacts.duration_reported.
  destruct ((y <? 1) || (50 <? y)).
  - apply lookup_insert_eq.
  - apply lookup_delete_eq.
Qed.

(** ** The component's state under changes *)

(** A change of the form: a numeric field receives the Number its handler
    parsed, or the bracket selector receives an id. *)
Inductive change : Type :=
  | NumberChange (name : string) (v : float)
  | TrancheChange (trancheId : string).



Module StateFacts.
Import FloatOrder.

(** The loop reads the capital and the contribution of [inputs] only. *)
Lemma for_mois_ext (i i' : inputs) :
  sommeInitiale i = sommeInitiale i' -> mensualite i = mensualite i' ->
  forall (fuel : nat) (tauxMensuel nombreMois mois montantTotal : float)
         (graphData : list point),
    for_mois fuel i tauxMensuel nombreMois mois montantTotal graphData
    = for_mois fuel i' tauxMensuel nombreMois mois montantTotal graphData.
Proof.
  intros Hs Hc fuel. induction fuel as [|fuel IH]; intros t nm m mt g; [reflexivity|].
  cbn [for_mois]. rewrite Hs, Hc. destruct (m <=? nm)%float; [apply IH | reflexivity].
Qed.





(** *** Month labels *)

Definition labels_distinct (a : Z) : bool :=
  forallb (fun b => (a =? b) || negb (String.eqb (formatMois a) (formatMois b)))
          (Counter.Zrange 0 601).

Lemma labels_table : forallb labels_distinct (Counter.Zrange 0 601) = true.
Proof. vm_compute. reflexivity. Qed.

End StateFacts.



(** X10: a duration that is NaN (what [parseInt] gives on a cleared field) goes
    through [handleInputChange] without a message, and the simulation then
    runs no iteration: the series is the initial point alone, and the
    contributed amount and the gain are NaN. *)
Theorem nan_duration_single_point (st : inputs * gmap string string) (fuel : nat) :
  let st' := handleInputChange st "nombreAnnees" nan in
  let sI := sommeInitiale (fst st) in
  snd st' !! "nombreAnnees" = None /\
  calculateInvestment (S fuel) (fst st')
  = Some (Results (round2 sI) nan nan [Point 0 sI sI]
                  (fst (calculateRecommendation (trancheRevenu (fst st)))),
          snd (calculateRecommendation (trancheRevenu (fst st)))).
Proof.
  cbv zeta. unfold handleInputChange.
  rewrite ValidateFacts.validateInput_nombreAnnees. cbn [value errors fst snd].
  split; [apply lookup_delete_eq|].
  rewrite ClampFacts.Math_max_nan, ClampFacts.Math_min_nan.
  unfold calculateInvestment, set_input.
  cbn [String.eqb Ascii.eqb Bool.eqb nombreAnnees sommeInitiale mensualite
       tauxAnnuel trancheRevenu].
  rewrite MoreFloat.mul_nan_l. cbn [for_mois].
  rewrite MoreFloat.leb_nan_r.
  rewrite MoreFloat.mul_nan_r, MoreFloat.add_nan_r, MoreFloat.sub_nan_r,
    MoreFloat.round2_nan.
  now destruct (calculateRecommendation (trancheRevenu (fst st))).
Qed.

(** X11: choosing a bracket leaves the messages as they are and changes nothing
    in what the simulation returns but the recommendation and the console
    output, which are those of the chosen bracket. *)
Theorem tranche_change_only_recommendation (st : inputs * gmap string string)
    (trancheId : string) (fuel : nat) :
  let st' := handleTrancheChange st trancheId in
  snd st' = snd st /\
  calculateInvestment fuel (fst st')
  = match calculateInvestment fuel (fst st) with
    | Some (r, _) =>
        Some (Results (montantTotal r) (montantInvesti r) (gains r) (graphData r)
                      (fst (calculateRecommendation trancheId)),
              snd (calculateRecommendation trancheId))
    | None => None
    end.
Proof.
  cbv zeta. split; [reflexivity|].
  unfold calculateInvestment, handleTrancheChange.
  cbn [fst nombreAnnees sommeInitiale mensualite tauxAnnuel trancheRevenu].
  rewrite (StateFacts.for_mois_ext _ (fst st)) by reflexivity.
  destruct (for_mois _ _ _ _ _ _ _) as [[mt g]|]; [|reflexivity].
  destruct (calculateRecommendation trancheId), (calculateRecommendation _).
  reflexivity.
Qed.

(** X12: the two revisions compute the same: the earlier [calculateInvestment]
    returns the result of the present one, and the earlier
    [calculateRecommendation] its recommendation; the present revision adds
    the console warning only. *)
Theorem revisions_agree (fuel : nat) (i : inputs) :
  Legacy.calculateInvestment fuel i = fst <$> calculateInvestment fuel i /\
  forall trancheId,
    Legacy.calculateRecommendation trancheId = fst (calculateRecommendation trancheId).
Proof.
  assert (H : forall trancheId,
             Legacy.calculateRecommendation trancheId
             = fst (calculateRecommendation trancheId)).
  { intros trancheId. unfold Legacy.calculateRecommendation, calculateRecommendation.
    now destruct (find _ TRANCHES). }
  split; [|exact H].
  unfold Legacy.calculateInvestment, calculateInvestment.
  destruct (for_mois _ _ _ _ _ _ _) as [[mt g]|]; [|reflexivity].
  rewrite H. now destruct (calculateRecommendation (trancheRevenu i)).
Qed.

(** X13: in the earlier revision a field never holds NaN: [parsed || 0] is 0 for
    NaN and equal, as a Number, to any other parsed value.  With the
    duration cleared it holds 0, and the simulation runs no iteration: the
    series is the initial point alone, and the final total the rounded
    capital. *)
Theorem legacy_cleared_duration (i : inputs) (v : float) (fuel : nat) :
  is_nan (Legacy.or_zero v) = false /\
  (is_nan v = false -> (Legacy.or_zero v =? v)%float = true) /\
  exists r,
    Legacy.calculateInvestment (S fuel) (Legacy_setField i "nombreAnnees" nan) = Some r /\
    graphData r = [Point 0 (sommeInitiale i) (sommeInitiale i)] /\
    montantTotal r = round2 (sommeInitiale i).
Proof.
  split; [|split].
  - unfold Legacy.or_zero. destruct (is_nan v) eqn:Hn; [reflexivity|].
    cbn [orb]. destruct (is_zero v); [reflexivity | exact Hn].
  - intros Hn. unfold Legacy.or_zero. rewrite Hn. cbn [orb].
    destruct (is_zero v) eqn:Hz.
    + unfold is_zero in Hz. rewrite FloatOrder.eqb_fkey in *.
      change (FloatOrder.fkey 0) with (Some 0) in *.
      destruct (FloatOrder.fkey v) as [k|]; [|discriminate].
      now rewrite Z.eqb_sym.
    + rewrite FloatOrder.is_nan_fkey in Hn. rewrite FloatOrder.eqb_fkey.
      destruct (FloatOrder.fkey v); [apply Z.eqb_refl | discriminate].
  - eexists. split; [|split]; [reflexivity | reflexivity | reflexivity].
Qed.

(** X14: on the months a series can hold (0 to 600), the labels [formatMois]
    gives are pairwise distinct. *)
Theorem formatMois_injective (a b : Z) :
  0 <= a <= 600 -> 0 <= b <= 600 -> formatMois a = formatMois b -> a = b.
Proof.
  intros Ha Hb Heq.
  pose proof (proj1 (forallb_forall _ _) StateFacts.labels_table a
                (Counter.Zrange_In 0 601 a ltac:(lia))) as H.
  unfold StateFacts.labels_distinct in H.
  pose proof (proj1 (forallb_forall _ _) H b
                (Counter.Zrange_In 0 601 b ltac:(lia))) as H'.
  cbv beta in H'. rewrite Heq, String.eqb_refl in H'. cbn [negb] in H'.
  rewrite orb_false_r in H'. now apply Z.eqb_eq.
Qed.

Lemma formatMois_injective_witness :
  0 <= 24 <= 600 /\ 0 <= 24 <= 600 /\ formatMois 24 = "2 ans" /\ 24 = 24.
Proof.
  split; [lia|]. split; [lia|]. split; [reflexivity|].
  apply (formatMois_injective 24 24); [lia | lia | reflexivity].
Defined.

(** ** The loop ends *)

Module Termination.
Import FloatOrder Rounding Ops FloatArith MoreFloat.

(** Twelve times a clamped duration is NaN or at most 600. *)
Lemma clamped_months (v : float) :
  (JS.Z2F 601 <=? JS.Math_min 50 (JS.Math_max 1 v) * 12)%float = false.
Proof.
  pose proof unit_pos as HU.
  destruct (fkey v) as [kv|] eqn:Hv.
  - destruct (Math_max_fkey 1 v _ kv ValidateFacts.fkey_1 Hv) as [Hk1 _].
    destruct (Math_min_fkey 50 _ _ _ ValidateFacts.fkey_50 Hk1) as [Hk2 _].
    change ValidateFacts.unit_key with unit_key in Hk2.
    remember (Z.min (50 * unit_key) (Z.max (1 * unit_key) kv)) as kc eqn:Ekc.
    assert (Hkc : unit_key <= kc <= 50 * unit_key) by lia.
    assert (H50 : 50 * unit_key < inf_key) by reflexivity.
    assert (H12 : 12 * unit_key < inf_key) by reflexivity.
    pose proof (fmul_key _ 12 kc (12 * unit_key) Hk2 Growth.key_of_12
                  ltac:(lia) ltac:(lia)) as Hm.
    rewrite leb_fkey, Hm, fkey_Z2F_small by (split; [lia | reflexivity]).
    apply Z.leb_gt.
    apply Z.le_lt_trans with (600 * unit_key); [|lia].
    rewrite <- (RK_int 600) by (split; [lia | reflexivity]).
    apply RK_mono; try lia.
    + apply Z.mul_nonneg_nonneg; lia.
    + rewrite Z.mul_1_r.
      replace (600 * unit_key * unit_key) with (50 * unit_key * (12 * unit_key)) by ring.
      apply Z.mul_le_mono_nonneg_r; lia.
  - assert (is_nan v = true) as Hn by now rewrite is_nan_fkey, Hv.
    apply is_nan_eq in Hn. subst v.
    rewrite ClampFacts.Math_max_nan, ClampFacts.Math_min_nan, mul_nan_l.
    apply leb_nan_r.
Qed.

(** A loop whose bound is below 601 ends by its 601st test, with at most
    one more point per month. *)
Lemma for_mois_ends (i : inputs) (tauxMensuel nombreMois : float) :
  (JS.Z2F 601 <=? nombreMois)%float = false ->
  forall (d k fuel : nat) (montantTotal : float) (graphData : list point),
    (k + d = 601)%nat -> (d < fuel)%nat ->
    exists mt g,
      for_mois fuel i tauxMensuel nombreMois (JS.Z2F (Z.of_nat k)) montantTotal graphData
      = Some (mt, g) /\
      (length graphData <= length g <= length graphData + d)%nat.
Proof.
  intros Hend d. induction d as [|d IH]; intros k fuel mt g Hk Hfuel;
    (destruct fuel as [|fuel]; [lia|]); cbn [for_mois].
  - replace k with 601%nat by lia. change (Z.of_nat 601) with 601. rewrite Hend.
    exists mt, g. split; [reflexivity | lia].
  - destruct (JS.Z2F (Z.of_nat k) <=? nombreMois)%float.
    + rewrite Counter.Z2F_succ by lia.
      replace (Z.of_nat k + 1) with (Z.of_nat (S k)) by lia.
      edestruct (IH (S k) fuel) as (mt' & g' & Hrun & Hlen); [lia | lia |].
      exists mt', g'. split; [exact Hrun|].
      rewrite length_app in Hlen. cbn [length] in Hlen. lia.
    + exists mt, g. split; [reflexivity | lia].
Qed.

Lemma calculateInvestment_ends (i : inputs) (fuel : nat) :
  (JS.Z2F 601 <=? nombreAnnees i * 12)%float = false ->
  exists r console,
    calculateInvestment (601 + fuel) i = Some (r, console) /\
    (1 <= length (graphData r) <= 601)%nat.
Proof.
  intros Hend. unfold calculateInvestment.
  destruct (for_mois_ends i (tauxAnnuel i / 100 / 12) _ Hend 600 1 (601 + fuel)
              (sommeInitiale i) [Point 0 (sommeInitiale i) (sommeInitiale i)]
              eq_refl ltac:(lia)) as (mt & g & Hrun & Hlen).
  change (JS.Z2F (Z.of_nat 1)) with 1%float in Hrun. rewrite Hrun.
  destruct (calculateRecommendation (trancheRevenu i)) as [reco console].
  eexists _, _. split; [reflexivity|]. cbn [graphData length] in *. lia.
Qed.

End Termination.

(** X15: once the duration went through [handleInputChange], whatever Number
    was entered (a fraction, an infinity and NaN included) and whatever the
    other fields hold, the simulation ends within 601 tests of the loop
    condition, with a series of at least one and at most 601 points. *)
Theorem validated_duration_terminates (st : inputs * gmap string string)
    (v : float) (fuel : nat) :
  exists r console,
    calculateInvestment (601 + fuel) (fst (handleInputChange st "nombreAnnees" v))
      = Some (r, console) /\
    (1 <= length (graphData r) <= 601)%nat.
Proof.
  apply Termination.calculateInvestment_ends.
  unfold handleInputChange.
  rewrite ValidateFacts.validateInput_nombreAnnees. cbn [value errors fst snd].
  unfold set_input.
  cbn [String.eqb Ascii.eqb Bool.eqb nombreAnnees].
  apply Termination.clamped_months.
Qed.

(** ** The recommendation, for every id *)

(** X16: whatever the id (one of the table or not), the recommended amount is
    the Number of a whole amount between 0 and 13500, and the percentage
    lies between 0 and 100. *)
Theorem recommendation_whole_amount (trancheId : string) :
  let r := fst (calculateRecommendation trancheId) in
  (exists z : Z, 0 <= z <= 13500 /\ montantRecommande r = JS.Z2F z) /\
  (0 <=? pourcentageRevenu r)%float && (pourcentageRevenu r <=? 100)%float = true.
Proof.
  cbv zeta. unfold calculateRecommendation.
  destruct (find _ TRANCHES) as [t|] eqn:Hf.
  - apply find_some in Hf. destruct Hf as [Hin _]. cbn in Hin. cbn [fst].
    destruct Hin as [<- | [<- | [<- | [<- | [<- | []]]]]].
    + split; [exists 50; split; [lia | reflexivity] | reflexivity].
    + split; [exists 300; split; [lia | reflexivity] | reflexivity].
    + split; [exists 750; split; [lia | reflexivity] | reflexivity].
    + split; [exists 1400; split; [lia | reflexivity] | reflexivity].
    + split; [exists 13500; split; [lia | reflexivity] | reflexivity].
  - cbn [fst]. split; [exists 0; split; [lia | reflexivity] | reflexivity].
Qed.
